(** * Strand / WorkQueue: an interleaving model of the serializing strand

    The development embeds [Strand.h], [WorkQueue.h] and [Monitor.h] as a
    small-step transition system.  Every [Monitor::operator()] call and every
    critical section of [WorkQueue] is one atomic step (that is what the mutex
    provides); thread-local work (call-stack markers, calls, returns) happens
    between those steps.  Threads are continuation stacks of [instr], one
    constructor per control point of the source. *)

From stdpp Require Import base list functions relations.
From Stdlib Require Import Lia.

(** ** Callables *)

(** A [handler] is what a [std::function<void()>] can hold: nothing at all
    ([Null], the empty function, e.g. built from [nullptr]) or client code.
    Client code is a sequence of statements; the statements that matter here
    are the calls into the public interface of the two classes. *)
Inductive handler : Type :=
  | Null
  | Fn (body : list action)
with action : Type :=
  | ADispatch (s : nat) (h : handler)   (* strand_s.dispatch(h) *)
  | APost (s : nat) (h : handler)       (* strand_s.post(h) *)
  | APush (h : handler)                 (* workQueue.push(h) *)
  | AStop                               (* workQueue.stop() *)
  | ARunWQ                              (* workQueue.run() *)
  | AWork (n : nat).                    (* an observable effect of client code *)

(** [if (handler)]: the bool conversion of [std::function]. *)
Definition nonempty (h : handler) : bool :=
  match h with Null => false | Fn _ => true end.

(** Items of [WorkQueue::m_q]: whatever a client pushed, or the closure
    [[this] { run(); }] that [Strand::post] pushes (never empty). *)
Inductive work : Type :=
  | Task (h : handler)
  | RunStrand (s : nat).

(** The shutdown marker is the empty work item, [push(nullptr)]. *)
Definition marker : work := Task Null.

Definition is_marker (w : work) : bool :=
  match w with Task Null => true | _ => false end.

(** ** Callstack *)

Module Callstack.

(** Modelled from the spec: [Callstack.h] is included by [Strand.h] and
    [WorkQueue.h] but is not among the sources.  Following the spec
    (CallContextRegistry): a per-thread, per-tag stack of instance
    identities; the scoped guard pushes on entry and pops on exit;
    [contains] holds iff the identity is anywhere on the stack. *)
Definition t : Type := list nat.

(** Modelled from the spec: the constructor of the scoped guard [Context]. *)
Definition enter (id : nat) (cs : t) : t := id :: cs.

(** Modelled from the spec: the destructor of the scoped guard. *)
Definition leave (cs : t) : t := tail cs.

(** Modelled from the spec: [contains(identity)]. *)
Definition contains (id : nat) (cs : t) : bool := bool_decide (id ∈ cs).

End Callstack.

(** ** Monitor *)

(** [Monitor<T>::operator()(f)]: [f] is applied to the protected value with
    the mutex held.  [f] mutates the value in place; here it returns the new
    value next to its result.  Holding the mutex for the whole call is what
    makes a call one step of the system below. *)
Definition Monitor_call {T X : Type} (f : T → X) (m_t : T) : X := f m_t.

(** ** Strand::Data and the three transactions on it *)

Record Data : Type := mkData { running : bool; q : list handler }.

(** [struct Data { bool running = false; std::queue<...> q; }] *)
Definition Data_init : Data := mkData false [].

(** The lambda of [Strand::dispatch] (lines 62-70): returns [trigger]. *)
Definition dispatch_txn (h : handler) (d : Data) : bool * Data :=
  if running d then (false, mkData (running d) (q d ++ [h]))
  else (true, mkData true (q d)).

(** The lambda of [Strand::post] (lines 93-101): returns [trigger]. *)
Definition post_txn (h : handler) (d : Data) : bool * Data :=
  let d1 := mkData (running d) (q d ++ [h]) in
  if running d1 then (false, d1) else (true, mkData true (q d1)).

(** The lambda of [Strand::run] (lines 122-130) after its assertion.  The
    local [handler] starts empty and is assigned only when the queue has an
    element. *)
Definition run_body (d : Data) : handler * Data :=
  match q d with
  | h :: rest => (h, mkData (running d) rest)   (* handler = front; pop *)
  | [] => (Null, mkData false (q d))            (* running = false *)
  end.

(** The same lambda with [assert(data.running)]: [None] is the abort. *)
Definition run_txn (d : Data) : option (handler * Data) :=
  if running d then Some (run_body d) else None.

(** ** Threads *)

(** Control points of the source; a thread's continuation is a list of them,
    innermost first. *)
Inductive instr : Type :=
  | IUser (a : action)              (* next statement of client code *)
  | IHandler (s : nat) (h : handler)(* [handler()] in Strand s: lines 53, 76, 133 *)
  | IHandlerEnd (s : nat)           (* that call returns *)
  | IPushRun (s : nat)              (* [m_proc.push([this] { run(); })], line 105 *)
  | IRun (s : nat)                  (* entry of [Strand::run], line 119 *)
  | IDrain (s : nat)                (* head of its loop, lines 120-130 *)
  | ICtxExit (s : nat)              (* destructor of a [Callstack<Strand>::Context] *)
  | IWork (w : work)                (* [w()], WorkQueue.h line 32 *)
  | IWQPop                          (* head of the loop of [WorkQueue::run], lines 22-29 *)
  | IWQShutdown                     (* [push(nullptr); return;], lines 37-38 *)
  | IWQCtxExit.                     (* destructor of the [Callstack<WorkQueue>::Context] *)

(** The identity of the one [WorkQueue] every strand is bound to. *)
Definition wq_id : nat := 0.

Record thread : Type := mkThread {
  cs_wq : Callstack.t;       (* thread-local Callstack<WorkQueue> *)
  cs_strand : Callstack.t;   (* thread-local Callstack<Strand> *)
  code : list instr
}.

(** What all threads share.  [out] collects the effects of [AWork]. *)
Record shared : Type := mkShared {
  strands : nat → Data;
  m_q : list work;
  out : list nat
}.

Definition set_strand (s : nat) (d : Data) (sh : shared) : shared :=
  mkShared (<[s := d]> (strands sh)) (m_q sh) (out sh).

(** [WorkQueue::push] *)
Definition push (w : work) (sh : shared) : shared :=
  mkShared (strands sh) (m_q sh ++ [w]) (out sh).

Definition set_code (k : list instr) (th : thread) : thread :=
  mkThread (cs_wq th) (cs_strand th) k.

(** [WorkQueue::canDispatch] *)
Definition canDispatch (th : thread) : bool :=
  Callstack.contains wq_id (cs_wq th).

(** [Strand::runningInThisThread] *)
Definition runningInThisThread (s : nat) (th : thread) : bool :=
  Callstack.contains s (cs_strand th).

Inductive outcome : Type :=
  | Next (sh : shared) (th : thread)
  | Blocked        (* waiting on [m_cond] *)
  | Finished       (* the thread function returned *)
  | AssertFail     (* [assert(data.running)] failed *)
  | BadCall.       (* an empty std::function was called *)

(** [Strand::post] called with continuation [k]. *)
Definition post_call (s : nat) (h : handler) (k : list instr)
    (sh : shared) (th : thread) : outcome :=
  let '(trigger, d) := Monitor_call (post_txn h) (strands sh s) in
  Next (set_strand s d sh)
       (set_code (if trigger then IPushRun s :: k else k) th).

(** [Strand::dispatch] called with continuation [k]. *)
Definition dispatch_call (s : nat) (h : handler) (k : list instr)
    (sh : shared) (th : thread) : outcome :=
  if negb (canDispatch th) then post_call s h k sh th
  else if runningInThisThread s th then Next sh (set_code (IHandler s h :: k) th)
  else
    let '(trigger, d) := Monitor_call (dispatch_txn h) (strands sh s) in
    if trigger then
      Next (set_strand s d sh)
           (mkThread (cs_wq th) (Callstack.enter s (cs_strand th))
                     (IHandler s h :: IRun s :: ICtxExit s :: k))
    else Next (set_strand s d sh) (set_code k th).

Definition user_step (a : action) (k : list instr)
    (sh : shared) (th : thread) : outcome :=
  match a with
  | ADispatch s h => dispatch_call s h k sh th
  | APost s h => post_call s h k sh th
  | APush h => Next (push (Task h) sh) (set_code k th)
  | AStop => Next (push marker sh) (set_code k th)
  | ARunWQ =>
      Next sh (mkThread (Callstack.enter wq_id (cs_wq th)) (cs_strand th)
                        (IWQPop :: IWQCtxExit :: k))
  | AWork n =>
      Next (mkShared (strands sh) (m_q sh) (out sh ++ [n])) (set_code k th)
  end.

(** One step of one thread. *)
Definition thread_step (sh : shared) (th : thread) : outcome :=
  match code th with
  | [] => Finished
  | IUser a :: k => user_step a k sh th
  | IHandler s Null :: k => BadCall
  | IHandler s (Fn body) :: k =>
      Next sh (set_code (map IUser body ++ IHandlerEnd s :: k) th)
  | IHandlerEnd s :: k => Next sh (set_code k th)
  | IPushRun s :: k => Next (push (RunStrand s) sh) (set_code k th)
  | IRun s :: k =>
      Next sh (mkThread (cs_wq th) (Callstack.enter s (cs_strand th))
                        (IDrain s :: ICtxExit s :: k))
  | IDrain s :: k =>
      match Monitor_call run_txn (strands sh s) with
      | None => AssertFail
      | Some (h, d) =>
          Next (set_strand s d sh)
               (set_code (if nonempty h then IHandler s h :: IDrain s :: k else k) th)
      end
  | ICtxExit s :: k =>
      Next sh (mkThread (cs_wq th) (Callstack.leave (cs_strand th)) k)
  | IWork (Task Null) :: k => BadCall
  | IWork (Task (Fn body)) :: k => Next sh (set_code (map IUser body ++ k) th)
  | IWork (RunStrand s) :: k => Next sh (set_code (IRun s :: k) th)
  | IWQPop :: k =>
      match m_q sh with
      | [] => Blocked
      | w :: rest =>
          Next (mkShared (strands sh) rest (out sh))
               (set_code (if is_marker w then IWQShutdown :: k
                          else IWork w :: IWQPop :: k) th)
      end
  | IWQShutdown :: k => Next (push marker sh) (set_code k th)
  | IWQCtxExit :: k =>
      Next sh (mkThread (Callstack.leave (cs_wq th)) (cs_strand th) k)
  end.

(** ** The system *)

Record system : Type := mkSystem { sh_of : shared; threads : list thread }.

(** Any thread that can move may move. *)
Inductive step (sys : system) : system → Prop :=
  | step_thread i th sh' th' :
      threads sys !! i = Some th →
      thread_step (sh_of sys) th = Next sh' th' →
      step sys (mkSystem sh' (<[i := th']> (threads sys))).

(** Every strand idle, the work queue empty, each thread about to run its
    thread function. *)
Definition spawn (prog : list action) : thread :=
  mkThread [] [] (map IUser prog).

Definition boot (progs : list (list action)) : system :=
  mkSystem (mkShared (λ _, Data_init) [] []) (map spawn progs).

Definition reachable (sys : system) : Prop :=
  ∃ progs, rtc step (boot progs) sys.

(** An executable scheduler: thread [i] moves if it can. *)
Definition sched1 (i : nat) (sys : system) : system :=
  match threads sys !! i with
  | Some th =>
      match thread_step (sh_of sys) th with
      | Next sh' th' => mkSystem sh' (<[i := th']> (threads sys))
      | _ => sys
      end
  | None => sys
  end.

Definition schedule (order : list nat) (sys : system) : system :=
  foldl (λ acc i, sched1 i acc) sys order.

(** ** Ownership tokens

    Whoever is about to run, or is running, the drain loop of strand [s]
    holds its token: the closure in the work queue, the thread between the
    [post] transaction and its [push], the thread about to enter or inside
    [Strand::run]. *)

Definition owner_instr (s : nat) (i : instr) : bool :=
  match i with
  | IPushRun s' | IRun s' | IDrain s' | IWork (RunStrand s') => bool_decide (s' = s)
  | _ => false
  end.

Definition owner_work (s : nat) (w : work) : bool :=
  match w with RunStrand s' => bool_decide (s' = s) | Task _ => false end.

Fixpoint tokens_code (s : nat) (c : list instr) : nat :=
  match c with
  | [] => 0
  | i :: k => (if owner_instr s i then 1 else 0) + tokens_code s k
  end.

Fixpoint tokens_wq (s : nat) (w : list work) : nat :=
  match w with
  | [] => 0
  | x :: rest => (if owner_work s x then 1 else 0) + tokens_wq s rest
  end.

Definition tokens (s : nat) (sys : system) : nat :=
  tokens_wq s (m_q (sh_of sys))
  + sum_list_with (λ th, tokens_code s (code th)) (threads sys).

(** At most one token when the strand is marked running, none otherwise. *)
Definition cap (d : Data) : nat := if running d then 1 else 0.

Definition token_inv (sys : system) : Prop :=
  ∀ s, tokens s sys ≤ cap (strands (sh_of sys) s).

(** ** Shape of a thread's continuation *)

Fixpoint strand_ctxs (c : list instr) : list nat :=
  match c with
  | [] => []
  | ICtxExit s :: k => s :: strand_ctxs k
  | _ :: k => strand_ctxs k
  end.

Fixpoint wq_ctxs (c : list instr) : list nat :=
  match c with
  | [] => []
  | IWQCtxExit :: k => wq_id :: wq_ctxs k
  | _ :: k => wq_ctxs k
  end.

(** What may sit directly on top of the exit of a strand context. *)
Definition guards (s : nat) (i : instr) : Prop :=
  i = IRun s ∨ i = IDrain s ∨ i = ICtxExit s.

Definition adjacent (i : instr) (k : list instr) : Prop :=
  match k with ICtxExit s :: _ => guards s i | _ => True end.

(** What an instruction needs below it. *)
Definition needs (i : instr) (k : list instr) : Prop :=
  match i with
  | IHandler s _ | IHandlerEnd s => 0 < tokens_code s k ∧ wq_ctxs k ≠ []
  | IRun _ | IDrain _ | ICtxExit _ | IWork _ | IWQPop | IWQShutdown =>
      wq_ctxs k ≠ []
  | _ => True
  end.

Definition no_exit_head (k : list instr) : Prop :=
  match k with ICtxExit _ :: _ => False | _ => True end.

Fixpoint wf_code (c : list instr) : Prop :=
  match c with
  | [] => True
  | i :: k => adjacent i k ∧ needs i k ∧ wf_code k
  end.

Definition wf_thread (th : thread) : Prop :=
  cs_strand th = strand_ctxs (code th)
  ∧ cs_wq th = wq_ctxs (code th)
  ∧ wf_code (code th).

Definition wf_system (sys : system) : Prop :=
  Forall wf_thread (threads sys) ∧ token_inv sys.

(** A thread is executing a handler of strand [s] from the moment the
    strand's code calls it until that call returns; nested calls keep the
    outer ones open. *)
Definition in_handler (s : nat) (i : instr) : bool :=
  match i with
  | IHandler s' _ | IHandlerEnd s' => bool_decide (s' = s)
  | _ => false
  end.

Definition executing (s : nat) (th : thread) : bool :=
  existsb (in_handler s) (code th).

(** The strand is marked running but nobody is going to drain it. *)
Definition stuck (s : nat) (sys : system) : Prop :=
  running (strands (sh_of sys) s) = true ∧ tokens s sys = 0.

(** ** Shapes of [Strand::Data] *)

Inductive shape : Type := Idle | Owned.

Definition strand_inv (d : Data) : Prop := running d = false → q d = [].

Definition has_shape (d : Data) (sp : shape) : Prop :=
  match sp with
  | Idle => running d = false ∧ q d = []
  | Owned => running d = true
  end.

(** ** Scenarios

    Small programs used to run the model: a client thread and workers. *)

(** A client posts a handler that dispatches on its own strand; one worker. *)
Definition reentrant_prog : list (list action) :=
  [[APost 0 (Fn [AWork 1; ADispatch 0 (Fn [AWork 2])])]; [ARunWQ]].

(** The worker has called the posted handler and is about to dispatch. *)
Definition reentrant_sys : system :=
  schedule [0; 0; 1; 1; 1; 1; 1; 1; 1] (boot reentrant_prog).

Definition reentrant_worker : thread :=
  mkThread [wq_id] [0]
    [IUser (ADispatch 0 (Fn [AWork 2])); IHandlerEnd 0; IDrain 0; ICtxExit 0;
     IWQPop; IWQCtxExit].

(** The worker is at the head of the drain loop of strand 0. *)
Definition draining_sys : system :=
  schedule [0; 0; 1; 1; 1; 1] (boot reentrant_prog).

Definition draining_worker : thread :=
  mkThread [wq_id] [0] [IDrain 0; ICtxExit 0; IWQPop; IWQCtxExit].

(** A client posts an empty callable and then a real handler; one worker. *)
Definition wedge_prog : list (list action) :=
  [[APost 0 Null; APost 0 (Fn [AWork 1])]; [ARunWQ]].

(** Both posted, the worker at the head of the drain loop. *)
Definition wedge_sys : system :=
  schedule [0; 0; 0; 1; 1; 1; 1] (boot wedge_prog).

(** The worker has run as far as it can. *)
Definition wedge_final : system := schedule [1; 1; 1; 1; 1] wedge_sys.

(** One stop and two consumers. *)
Definition relay_final : system :=
  schedule [1; 2; 0; 1; 1; 1; 2; 2; 2] (boot [[AStop]; [ARunWQ]; [ARunWQ]]).

Definition idle_shared : shared := mkShared (λ _, Data_init) [] [].


Definition marker_shared : shared :=
  mkShared (λ _, Data_init) [marker; Task (Fn [AWork 3])] [].

(** A worker thread between two work items. *)
Definition worker (c : list instr) : thread :=
  mkThread [wq_id] [] (c ++ [IWQPop; IWQCtxExit]).

(** A thread that is not a worker. *)
Definition client (c : list instr) : thread := mkThread [] [] c.

(** [strandSample]: twenty handlers posted to eight strands, then [stop];
    four workers.  The strand is picked by [i mod 8] in place of the random
    choice. *)
Definition sample_prog : list (list action) :=
  (map (λ i, APost (i mod 8) (Fn [AWork i])) (seq 0 20) ++ [AStop])
  :: replicate 4 [ARunWQ].

Definition round_robin (rounds : nat) : list nat :=
  concat (replicate rounds [0; 1; 2; 3; 4]).

Definition sample_final : system :=
  schedule (round_robin 60) (boot sample_prog).

(** ** Shutdown markers in flight

    A marker is in flight while it sits in the work queue or while a consumer
    that popped it has not pushed its replacement yet. *)

Fixpoint markers_code (c : list instr) : nat :=
  match c with
  | [] => 0
  | IWQShutdown :: k => S (markers_code k)
  | _ :: k => markers_code k
  end.

Fixpoint markers_wq (w : list work) : nat :=
  match w with
  | [] => 0
  | x :: rest => (if is_marker x then 1 else 0) + markers_wq rest
  end.

Definition markers (sys : system) : nat :=
  markers_wq (m_q (sh_of sys))
  + sum_list_with (λ th, markers_code (code th)) (threads sys).

(** ** One thread running alone *)

(** [n] steps of one thread while nobody else moves; it stops early when the
    thread cannot move. *)
Fixpoint solo (n : nat) (sh : shared) (th : thread) : shared * thread :=
  match n with
  | 0 => (sh, th)
  | S n' =>
      match thread_step sh th with
      | Next sh' th' => solo n' sh' th'
      | _ => (sh, th)
      end
  end.

(** A callable whose body is a sequence of observable effects, such as the
    lambdas of [strandSample]. *)
Definition job (ns : list nat) : handler := Fn (map AWork ns).

(** Steps the drain loop takes on a queue of jobs: per job the transaction,
    the call, the body and the return; then the transaction that finds the
    queue empty. *)
Definition drain_steps (nss : list (list nat)) : nat :=
  sum_list_with (λ ns, length ns + 3) nss + 1.

(** Steps the consumer loop takes on a queue of jobs followed by a marker:
    per job the pop, the call and the body; then the pop of the marker and
    the push of its replacement. *)
Definition consume_steps (nss : list (list nat)) : nat :=
  sum_list_with (λ ns, length ns + 2) nss + 2.

(** ** Programs that hand no empty callable to a strand *)

(** Client code is clean when every callable it dispatches or posts, at any
    depth, is non-empty.  An empty callable pushed on the work queue is the
    shutdown marker and is allowed. *)
Fixpoint clean_handler (h : handler) : bool :=
  match h with
  | Null => false
  | Fn body => forallb clean_action body
  end
with clean_action (a : action) : bool :=
  match a with
  | ADispatch _ h | APost _ h => clean_handler h
  | APush h =>
      match h with Null => true | Fn body => forallb clean_action body end
  | AStop | ARunWQ | AWork _ => true
  end.

Definition clean_work (w : work) : bool :=
  match w with
  | Task Null | RunStrand _ => true
  | Task (Fn body) => forallb clean_action body
  end.

Definition clean_instr (i : instr) : bool :=
  match i with
  | IUser a => clean_action a
  | IHandler _ h => clean_handler h
  | IWork w => clean_work w && negb (is_marker w)
  | _ => true
  end.

Definition clean_shared (sh : shared) : Prop :=
  (∀ s, forallb clean_handler (q (strands sh s)) = true)
  ∧ forallb clean_work (m_q sh) = true.

Definition clean_system (sys : system) : Prop :=
  clean_shared (sh_of sys)
  ∧ Forall (λ th, forallb clean_instr (code th) = true) (threads sys).

Definition clean_progs (progs : list (list action)) : bool :=
  forallb (forallb clean_action) progs.

(** A worker at the head of the drain loop of strand 0 with two jobs queued. *)
Definition two_jobs_sys : system :=
  mkSystem
    (mkShared (<[0 := mkData true [job [1; 2]; job [3]]]> (λ _, Data_init)) [] [])
    [draining_worker].

(** A consumer in front of two jobs and a marker. *)
Definition two_items_sys : system :=
  mkSystem
    (mkShared (λ _, Data_init) [Task (job [1]); Task (job [2; 3]); marker] [])
    [worker []].

(** A client about to call [stop], and one consumer. *)
Definition stopping_sys : system := boot [[AStop]; [ARunWQ]].

(** ** Effects done and effects pending *)

(** The effects a callable will perform when it is run to its end, each
    [AWork n] weighed by [wt n]; with [wt] constantly 1 this counts them,
    with [wt] the indicator of a value it counts that value. *)
Fixpoint work_handler (wt : nat → nat) (h : handler) : nat :=
  match h with
  | Null => 0
  | Fn body => sum_list_with (work_action wt) body
  end
with work_action (wt : nat → nat) (a : action) : nat :=
  match a with
  | AWork n => wt n
  | ADispatch _ h | APost _ h | APush h => work_handler wt h
  | AStop | ARunWQ => 0
  end.

Definition work_instr (wt : nat → nat) (i : instr) : nat :=
  match i with
  | IUser a => work_action wt a
  | IHandler _ h | IWork (Task h) => work_handler wt h
  | _ => 0
  end.

Fixpoint work_code (wt : nat → nat) (c : list instr) : nat :=
  match c with
  | [] => 0
  | i :: k => work_instr wt i + work_code wt k
  end.

Fixpoint work_queue (wt : nat → nat) (hs : list handler) : nat :=
  match hs with
  | [] => 0
  | h :: rest => work_handler wt h + work_queue wt rest
  end.

Fixpoint work_wq (wt : nat → nat) (ws : list work) : nat :=
  match ws with
  | [] => 0
  | Task h :: rest => work_handler wt h + work_wq wt rest
  | RunStrand _ :: rest => work_wq wt rest
  end.

Fixpoint work_done (wt : nat → nat) (ns : list nat) : nat :=
  match ns with
  | [] => 0
  | n :: rest => wt n + work_done wt rest
  end.

(** Strand identities below [B] only, at any depth. *)
Fixpoint bounded_handler (B : nat) (h : handler) : bool :=
  match h with
  | Null => true
  | Fn body => forallb (bounded_action B) body
  end
with bounded_action (B : nat) (a : action) : bool :=
  match a with
  | ADispatch s h | APost s h => (s <? B) && bounded_handler B h
  | APush h => bounded_handler B h
  | AStop | ARunWQ | AWork _ => true
  end.

Definition bounded_work (B : nat) (w : work) : bool :=
  match w with
  | Task h => bounded_handler B h
  | RunStrand s => s <? B
  end.

Definition bounded_instr (B : nat) (i : instr) : bool :=
  match i with
  | IUser a => bounded_action B a
  | IHandler s h => (s <? B) && bounded_handler B h
  | IHandlerEnd s | IPushRun s | IRun s | IDrain s | ICtxExit s => s <? B
  | IWork w => bounded_work B w
  | IWQPop | IWQShutdown | IWQCtxExit => true
  end.

Definition bounded_shared (B : nat) (sh : shared) : Prop :=
  (∀ s, forallb (bounded_handler B) (q (strands sh s)) = true)
  ∧ forallb (bounded_work B) (m_q sh) = true.

Definition bounded_system (B : nat) (sys : system) : Prop :=
  bounded_shared B (sh_of sys)
  ∧ Forall (λ th, forallb (bounded_instr B) (code th) = true) (threads sys).

Definition bounded_progs (B : nat) (progs : list (list action)) : bool :=
  forallb (forallb (bounded_action B)) progs.

(** Effects still to be performed: in the queues of the strands below [B],
    in the work queue and in the continuations of the threads. *)
Definition pending (B : nat) (wt : nat → nat) (sys : system) : nat :=
  sum_list_with (λ s, work_queue wt (q (strands (sh_of sys) s))) (seq 0 B)
  + work_wq wt (m_q (sh_of sys))
  + sum_list_with (λ th, work_code wt (code th)) (threads sys).

(** ** The sample program *)

(** [strandSample] for any choice of strands and any number of workers: the
    main thread posts, for each [(s, v)] of [jobs], a handler with the one
    effect [v] to strand [s] and then calls [stop]; each worker calls
    [workQueue.run()].  In the source the strand of job [i] is
    [randInRange(0, 7)], there are 20 jobs and 4 workers. *)
Definition sample_main (jobs : list (nat * nat)) : list action :=
  map (λ j, APost j.1 (job [j.2])) jobs ++ [AStop].

Definition sample_gen (jobs : list (nat * nat)) (w : nat) : list (list action) :=
  sample_main jobs :: replicate w [ARunWQ].

Definition is_work (a : action) : bool :=
  match a with AWork _ => true | _ => false end.

Definition is_job (h : handler) : bool :=
  match h with Fn body => forallb is_work body | Null => false end.

(** What the continuation of a worker of the sample is made of. *)
Definition worker_instr (i : instr) : bool :=
  match i with
  | IUser ARunWQ | IUser (AWork _) => true
  | IUser _ | IPushRun _ => false
  | IHandler _ h => is_job h
  | IWork w => match w with RunStrand _ => true | Task _ => false end
  | _ => true
  end.

(** Activations of the consumer loop, begun or about to begin. *)
Fixpoint loops (c : list instr) : nat :=
  match c with
  | [] => 0
  | IWQPop :: k | IUser ARunWQ :: k => S (loops k)
  | _ :: k => loops k
  end.

(** 1 for a thread that is not, and not about to be, in the consumer loop. *)
Definition left_loop (th : thread) : nat :=
  match loops (code th) with 0 => 1 | S _ => 0 end.

(** The continuation of the main thread of the sample: posts, then [stop]. *)
Fixpoint posts_then_stop (c : list instr) : bool :=
  match c with
  | IUser AStop :: k => match k with [] => true | _ => false end
  | IUser (APost _ h) :: k => is_job h && posts_then_stop k
  | _ => false
  end.

Definition main_ok (c : list instr) : bool :=
  match c with
  | [] => true
  | IPushRun _ :: k => posts_then_stop k
  | _ => posts_then_stop c
  end.

(** The work queue of the sample holds drain closures and markers only. *)
Definition queue_ok (wq : list work) : bool :=
  forallb (λ w, match w with Task (Fn _) => false | _ => true end) wq.

(** Nothing but markers behind the first marker. *)
Fixpoint drains_first (wq : list work) : bool :=
  match wq with
  | [] => true
  | w :: rest => if is_marker w then forallb is_marker rest else drains_first rest
  end.

Definition sample_inv (sys : system) : Prop :=
  ∃ m ws, threads sys = m :: ws
    ∧ main_ok (code m) = true
    ∧ Forall (λ t, forallb worker_instr (code t) = true
                   ∧ loops (code t) + markers_code (code t) ≤ 1) ws
    ∧ (∀ s, forallb is_job (q (strands (sh_of sys) s)) = true)
    ∧ queue_ok (m_q (sh_of sys)) = true
    ∧ drains_first (m_q (sh_of sys)) = true
    ∧ (code m ≠ [] →
         markers_wq (m_q (sh_of sys)) = 0 ∧ sum_list_with left_loop ws = 0)
    ∧ (0 < sum_list_with left_loop ws →
         forallb is_marker (m_q (sh_of sys)) = true).

(** A bound on the strands the sample uses. *)
Definition sample_bound (jobs : list (nat * nat)) : nat := S (max_list (jobs.*1)).

(** No thread can take a step. *)
Definition quiescent (sys : system) : Prop :=
  Forall (λ th, ∀ sh' th', thread_step (sh_of sys) th ≠ Next sh' th')
         (threads sys).

(** Once the main thread of the sample has returned a marker is in flight. *)
Definition stop_seen (sys : system) : Prop :=
  ∀ m ws, threads sys = m :: ws → code m = [] → 0 < markers sys.

(** The sample with two jobs on two strands and one worker, run to its end. *)
Definition tiny_sample_final : system :=
  schedule (concat (replicate 24 [0; 1])) (boot (sample_gen [(0, 7); (1, 8)] 1)).

(** ** Fuel

    A bound on the steps that are left.  The constants make every step of a
    thread pay for what it puts into a queue or on its continuation: a post
    pays for the queued handler and for the push of the drain closure, a
    popped item pays for its call, and so on. *)
Fixpoint size_handler (h : handler) : nat :=
  match h with
  | Null => 0
  | Fn body => sum_list_with size_action body
  end
with size_action (a : action) : nat :=
  match a with
  | AWork _ => 1
  | ADispatch _ h | APost _ h => 10 + size_handler h
  | APush h => 3 + size_handler h
  | AStop => 3
  | ARunWQ => 4
  end.

Definition fuel_instr (i : instr) : nat :=
  match i with
  | IUser a => size_action a
  | IHandler _ h => 2 + size_handler h
  | IHandlerEnd _ | IDrain _ | ICtxExit _ | IWQCtxExit => 1
  | IPushRun _ => 6
  | IRun _ | IWQShutdown => 3
  | IWork (Task h) => 1 + size_handler h
  | IWork (RunStrand _) => 4
  | IWQPop => 2
  end.

Fixpoint fuel_code (c : list instr) : nat :=
  match c with
  | [] => 0
  | i :: k => fuel_instr i + fuel_code k
  end.

Fixpoint fuel_queue (hs : list handler) : nat :=
  match hs with
  | [] => 0
  | h :: rest => 3 + size_handler h + fuel_queue rest
  end.

Fixpoint fuel_wq (ws : list work) : nat :=
  match ws with
  | [] => 0
  | Task h :: rest => 2 + size_handler h + fuel_wq rest
  | RunStrand _ :: rest => 5 + fuel_wq rest
  end.

Definition fuel (B : nat) (sys : system) : nat :=
  sum_list_with (λ s, fuel_queue (q (strands (sh_of sys) s))) (seq 0 B)
  + fuel_wq (m_q (sh_of sys))
  + sum_list_with (λ th, fuel_code (code th)) (threads sys).

(** * Proofs *)

(** ** Transactions *)

Lemma post_txn_spec h d :
  post_txn h d = (negb (running d), mkData true (q d ++ [h])).
Proof. unfold post_txn; simpl. by destruct d as [[] ?]. Qed.

Lemma dispatch_txn_spec h d :
  dispatch_txn h d =
    (negb (running d), mkData true (if running d then q d ++ [h] else q d)).
Proof. unfold dispatch_txn. by destruct d as [[] ?]. Qed.

Lemma strand_inv_shape d :
  strand_inv d ↔ has_shape d Idle ∨ has_shape d Owned.
Proof.
  unfold strand_inv; simpl. destruct (running d); split; auto.
  - intros [[? _]|?]; done.
  - intros [[_ ?]|?]; done.
Qed.

Lemma strand_inv_init : strand_inv Data_init.
Proof. done. Qed.

Lemma strand_inv_dispatch h d : strand_inv d → strand_inv (dispatch_txn h d).2.
Proof. rewrite dispatch_txn_spec. done. Qed.

Lemma strand_inv_post h d : strand_inv (post_txn h d).2.
Proof. rewrite post_txn_spec. done. Qed.

Lemma strand_inv_run_body d : strand_inv d → strand_inv (run_body d).2.
Proof.
  unfold strand_inv, run_body. destruct d as [r [|h rest]]; simpl; [done|].
  intros Hd Hr. by specialize (Hd Hr).
Qed.

Lemma run_txn_Some d r : run_txn d = Some r ↔ running d = true ∧ r = run_body d.
Proof.
  unfold run_txn. destruct (running d); split; try done.
  - by intros [= <-].
  - by intros [_ ->].
  - by intros [? _].
Qed.

Lemma run_txn_None d : run_txn d = None ↔ running d = false.
Proof. unfold run_txn. by destruct (running d). Qed.

(** ** Counting *)

Lemma tokens_code_app s c k :
  tokens_code s (c ++ k) = tokens_code s c + tokens_code s k.
Proof. induction c as [|i c IH]; simpl; lia. Qed.

Lemma tokens_code_user s body : tokens_code s (map IUser body) = 0.
Proof. induction body as [|a body IH]; simpl; lia. Qed.

Lemma tokens_wq_snoc s w x :
  tokens_wq s (w ++ [x]) = tokens_wq s w + (if owner_work s x then 1 else 0).
Proof. induction w as [|y w IH]; simpl; lia. Qed.

Lemma strand_ctxs_user body k : strand_ctxs (map IUser body ++ k) = strand_ctxs k.
Proof. by induction body. Qed.

Lemma wq_ctxs_user body k : wq_ctxs (map IUser body ++ k) = wq_ctxs k.
Proof. by induction body. Qed.

(** Replacing one element of a list changes a sum by the difference. *)
Lemma sum_list_with_insert {A} (f : A → nat) (l : list A) i x y :
  l !! i = Some x →
  sum_list_with f (<[i := y]> l) + f x = sum_list_with f l + f y.
Proof.
  revert i. induction l as [|a l IH]; intros [|i] Hi; simplify_eq/=; [lia|].
  specialize (IH _ Hi). lia.
Qed.

Lemma sum_list_with_lookup {A} (f : A → nat) (l : list A) i x :
  l !! i = Some x → f x ≤ sum_list_with f l.
Proof. intros Hi. apply sum_list_with_in. by eapply list_elem_of_lookup_2. Qed.

Lemma sum_list_with_two {A} (f : A → nat) (l : list A) i j x y :
  i ≠ j → l !! i = Some x → l !! j = Some y →
  f x + f y ≤ sum_list_with f l.
Proof.
  revert i j. induction l as [|a l IH]; intros [|i] [|j] Hij Hi Hj;
    simplify_eq/=.
  - pose proof (sum_list_with_lookup f _ _ _ Hj). lia.
  - pose proof (sum_list_with_lookup f _ _ _ Hi). lia.
  - assert (i ≠ j) as Hne by congruence.
    specialize (IH _ _ Hne Hi Hj). lia.
Qed.

(** ** The token invariant *)

Ltac txn_specs :=
  repeat match goal with
  | H : post_txn _ _ = _ |- _ => rewrite post_txn_spec in H
  | H : dispatch_txn _ _ = _ |- _ => rewrite dispatch_txn_spec in H
  | H : run_txn ?d = Some _ |- _ =>
      apply run_txn_Some in H; destruct H as [? H];
      unfold run_body in H; destruct (q d) eqn:?
  | H : run_txn _ = None |- _ => apply run_txn_None in H
  end.

(** All the ways a thread can take a step. *)
Ltac step_cases H :=
  unfold thread_step, user_step, dispatch_call, post_call, Monitor_call in H;
  simpl in H;
  repeat case_match; txn_specs; simplify_eq/=.

(** The strand a step touches is the one under study, or another one. *)
Ltac split_strand :=
  match goal with
  | |- context [<[?s0 := _]> _ ?s1] => destruct (decide (s0 = s1)) as [->|?]
  | H : context [bool_decide (?s0 = ?s1)] |- _ => destruct (decide (s0 = s1)) as [->|?]
  | |- context [bool_decide (?s0 = ?s1)] => destruct (decide (s0 = s1)) as [->|?]
  end;
  [ rewrite ?fn_lookup_insert, ?bool_decide_eq_true_2 in * by done
  | rewrite ?fn_lookup_insert_ne, ?bool_decide_eq_false_2 in * by done ].

Lemma thread_step_tokens sh th sh' th' s R :
  thread_step sh th = Next sh' th' →
  tokens_wq s (m_q sh) + tokens_code s (code th) + R ≤ cap (strands sh s) →
  tokens_wq s (m_q sh') + tokens_code s (code th') + R ≤ cap (strands sh' s).
Proof.
  destruct th as [cw cst [|i k]]; [done|].
  intros Hstep; step_cases Hstep.
  all: rewrite ?tokens_code_app, ?tokens_code_user, ?tokens_wq_snoc; simpl.
  all: try lia.
  all: unfold cap.
  all: try split_strand.
  all: simpl; repeat case_match; simplify_eq/=; try lia; congruence.
Qed.

Lemma step_token_inv sys sys' : token_inv sys → step sys sys' → token_inv sys'.
Proof.
  intros Hinv [i th sh' th' Hi Hstep] s. specialize (Hinv s).
  unfold tokens in *; simpl.
  pose proof (sum_list_with_insert (λ t, tokens_code s (code t)) _ i th th' Hi)
    as Hsum; simpl in Hsum.
  set (old := sum_list_with _ (threads sys)) in *.
  set (new := sum_list_with _ (<[i := th']> (threads sys))) in *.
  assert (tokens_code s (code th) ≤ old) as Hle
    by apply (sum_list_with_lookup (λ t, tokens_code s (code t)) _ _ _ Hi).
  pose proof (thread_step_tokens _ _ _ _ s (old - tokens_code s (code th)) Hstep).
  lia.
Qed.

Lemma boot_token_inv progs : token_inv (boot progs).
Proof.
  intros s. unfold tokens; simpl.
  induction progs as [|p progs IH]; simpl; [lia|].
  rewrite tokens_code_user. simpl in *. lia.
Qed.

(** ** Shape of continuations is preserved *)

Lemma adjacent_no_exit i k :
  adjacent i k → (∀ s, ¬ guards s i) → no_exit_head k.
Proof. destruct k as [|[] ?]; simpl; naive_solver. Qed.

Lemma no_exit_adjacent i k : no_exit_head k → adjacent i k.
Proof. by destruct k as [|[] ?]. Qed.

Lemma adjacent_mono i j k :
  adjacent i k → (∀ s, guards s i → guards s j) → adjacent j k.
Proof. destruct k as [|[] ?]; simpl; auto. Qed.

Lemma wf_code_user body k :
  wf_code k → no_exit_head k → wf_code (map IUser body ++ k).
Proof.
  intros Hk Hhd. induction body as [|a body IH]; [done|].
  simpl. split_and!; [|done..].
  destruct body; simpl; [by apply no_exit_adjacent|done].
Qed.

Lemma owner_below s c :
  wf_code c → s ∈ strand_ctxs c →
  0 < tokens_code s c ∨ ∃ k, c = ICtxExit s :: k.
Proof.
  induction c as [|i k IH]; simpl; [by intros _ ?%elem_of_nil|].
  intros (Hadj & _ & Hk) Hin.
  assert (i = ICtxExit s ∨ s ∈ strand_ctxs k) as [->|Hin'].
  { destruct i; auto. apply elem_of_cons in Hin as [->|?]; auto. }
  { right; eauto. }
  destruct (IH Hk Hin') as [?|[k' ->]]; [left; lia|].
  destruct Hadj as [->|[->| ->]]; simpl; rewrite ?bool_decide_eq_true_2 by done;
    [left; lia..|right; eauto].
Qed.

Lemma contains_nonempty id cs : Callstack.contains id cs = true → cs ≠ [].
Proof.
  unfold Callstack.contains. intros Hin%bool_decide_eq_true ->.
  by apply elem_of_nil in Hin.
Qed.

Lemma thread_step_wf sh th sh' th' :
  wf_thread th → thread_step sh th = Next sh' th' → wf_thread th'.
Proof.
  destruct th as [cw cst [|i k]]; [done|].
  intros (Hcs & Hcw & Hadj & Hneed & Hk) Hstep; simpl in *.
  step_cases Hstep; unfold wf_thread; simpl.
  all: rewrite ?strand_ctxs_user, ?wq_ctxs_user.
  all: split_and?; try done.
  all: try (eapply adjacent_mono; [exact Hadj|];
            intros ? [?|[?|?]]; simplify_eq; unfold guards; by auto).
  all: try (unfold guards; by auto).
  all: rewrite ?bool_decide_eq_true_2 by done; try lia.
  all: try (apply wf_code_user; simpl; by auto).
  all: try match goal with
       | H : negb (canDispatch _) = false |- wq_ctxs _ ≠ [] =>
           apply negb_false_iff, contains_nonempty in H; exact H
       end.
  - (* reentrant dispatch: the owner frame is below *)
    match goal with
    | H : runningInThisThread ?s _ = true, _ : adjacent ?i k |- _ =>
        apply bool_decide_eq_true in H; simpl in H;
        destruct (owner_below s (i :: k)) as [?|[? ?]];
        simpl in *; [done..|lia|done]
    end.
  - (* a handler called by the strand *)
    apply wf_code_user; [|done]. simpl. split_and!; [|by destruct Hneed..|done].
    eapply adjacent_mono; [exact Hadj|]. by intros ? [?|[?|?]].
  - (* a work item called by the queue *)
    apply wf_code_user; [done|].
    eapply adjacent_no_exit; [exact Hadj|]. by intros ? [?|[?|?]].
Qed.

Lemma spawn_wf prog : wf_thread (spawn prog).
Proof.
  unfold wf_thread, spawn; simpl.
  pose proof (strand_ctxs_user prog []) as H1.
  pose proof (wq_ctxs_user prog []) as H2.
  pose proof (wf_code_user prog [] I I) as H3.
  rewrite app_nil_r in H1, H2, H3. by rewrite H1, H2.
Qed.

(** ** Invariants of every reachable state *)

Lemma step_wf sys sys' : wf_system sys → step sys sys' → wf_system sys'.
Proof.
  intros [Hth Htok] Hstep. split; [|by eapply step_token_inv].
  destruct Hstep as [i th sh' th' Hi Hstep]; simpl.
  apply Forall_insert; [done|].
  eapply thread_step_wf; [|done]. by eapply Forall_lookup_1.
Qed.

Lemma boot_wf progs : wf_system (boot progs).
Proof.
  split; [|apply boot_token_inv]. simpl.
  apply Forall_fmap, Forall_true. intros prog. apply spawn_wf.
Qed.

Lemma rtc_step_wf sys sys' : wf_system sys → rtc step sys sys' → wf_system sys'.
Proof. intros Hwf Hrtc. induction Hrtc; eauto using step_wf. Qed.

Lemma reachable_wf sys : reachable sys → wf_system sys.
Proof. intros [progs Hrtc]. eapply rtc_step_wf; [apply boot_wf|done]. Qed.

Lemma sched1_rtc i sys : rtc step sys (sched1 i sys).
Proof.
  unfold sched1. destruct (threads sys !! i) as [th|] eqn:Hi; [|done].
  destruct (thread_step (sh_of sys) th) eqn:Hstep; try done.
  apply rtc_once. by econstructor.
Qed.

Lemma schedule_rtc order sys : rtc step sys (schedule order sys).
Proof.
  revert sys. induction order as [|i order IH]; intros sys; [done|].
  simpl. etrans; [apply sched1_rtc|apply IH].
Qed.

Lemma schedule_reachable order progs : reachable (schedule order (boot progs)).
Proof. exists progs. apply schedule_rtc. Qed.

(** ** Ownership of the executing thread *)

Lemma executing_owned s c :
  wf_code c → existsb (in_handler s) c = true → 0 < tokens_code s c.
Proof.
  induction c as [|i k IH]; simpl; [done|].
  intros (_ & Hneed & Hk) [Hi|Hin]%orb_true_iff; [|specialize (IH Hk Hin); lia].
  destruct i; simplify_eq/=; apply bool_decide_eq_true in Hi as ->; lia.
Qed.

Lemma executing_in_wq s c :
  wf_code c → existsb (in_handler s) c = true → wq_ctxs c ≠ [].
Proof.
  induction c as [|i k IH]; simpl; [done|].
  intros (_ & Hneed & Hk) [Hi|Hin]%orb_true_iff.
  - destruct i; simplify_eq/=; by destruct Hneed.
  - specialize (IH Hk Hin). by destruct i.
Qed.

Lemma wq_ctxs_contains c : wq_ctxs c ≠ [] → Callstack.contains wq_id (wq_ctxs c) = true.
Proof.
  intros Hne. apply bool_decide_eq_true.
  induction c as [|[] k IH]; simpl in *; try done; auto. apply list_elem_of_here.
Qed.

Lemma strand_ctx_in_wq s c :
  wf_code c → s ∈ strand_ctxs c → wq_ctxs c ≠ [].
Proof.
  induction c as [|i k IH]; simpl; [by intros _ ?%elem_of_nil|].
  intros (_ & Hneed & Hk) Hin.
  destruct i; simpl in *; auto.
Qed.

Lemma owner_can_dispatch s th :
  wf_thread th → runningInThisThread s th = true → canDispatch th = true.
Proof.
  intros (Hcs & Hcw & Hwf) Hrun%bool_decide_eq_true.
  unfold canDispatch. rewrite Hcw. apply wq_ctxs_contains.
  rewrite Hcs in Hrun. by eapply strand_ctx_in_wq.
Qed.

Lemma thread_step_strand_inv sh th sh' th' :
  (∀ s, strand_inv (strands sh s)) →
  thread_step sh th = Next sh' th' →
  ∀ s, strand_inv (strands sh' s).
Proof.
  destruct th as [cw cst [|i k]]; [done|].
  intros Hinv Hstep s; specialize (Hinv s). step_cases Hstep; try done.
  all: try split_strand; try done.
  all: unfold strand_inv in *; simpl in *; intros Hr; try done; congruence.
Qed.

Lemma rtc_step_strand_inv sys sys' :
  (∀ s, strand_inv (strands (sh_of sys) s)) →
  rtc step sys sys' →
  ∀ s, strand_inv (strands (sh_of sys') s).
Proof.
  intros Hinv Hrtc. induction Hrtc as [|sys1 sys2 sys3 Hstep _ IH]; [done|].
  apply IH. destruct Hstep as [i th sh' th' _ Hstep]; simpl.
  by eapply thread_step_strand_inv.
Qed.

Lemma reachable_strand_inv sys s :
  reachable sys → strand_inv (strands (sh_of sys) s).
Proof.
  intros [progs Hrtc]. eapply rtc_step_strand_inv; [|exact Hrtc].
  intros s'. apply strand_inv_init.
Qed.

(** Handlers of a strand run only on threads inside [WorkQueue::run]. *)
Lemma executing_can_dispatch s th :
  wf_thread th → executing s th = true → canDispatch th = true.
Proof.
  intros (_ & Hcw & Hwf) Hex. unfold canDispatch. rewrite Hcw.
  apply wq_ctxs_contains. by eapply executing_in_wq.
Qed.

(** ** A strand whose token is lost stays stuck *)

Lemma thread_step_stuck sh th sh' th' s :
  thread_step sh th = Next sh' th' →
  running (strands sh s) = true →
  tokens_wq s (m_q sh) = 0 →
  tokens_code s (code th) = 0 →
  running (strands sh' s) = true
  ∧ tokens_wq s (m_q sh') = 0
  ∧ tokens_code s (code th') = 0
  ∧ ∃ more, q (strands sh' s) = q (strands sh s) ++ more.
Proof.
  destruct th as [cw cst [|i k]]; [done|].
  intros Hstep Hrun Hwq Hcode; step_cases Hstep.
  all: rewrite ?tokens_code_app, ?tokens_code_user, ?tokens_wq_snoc; simpl.
  all: try split_strand.
  all: simpl in *; try rewrite Hrun in *; repeat case_match; simplify_eq/=.
  all: try lia.
  all: try (split_and!; [done || lia..|]).
  all: try by (exists []; rewrite app_nil_r).
  all: try by eexists.
  congruence.
Qed.

Lemma tokens_zero s sys i th :
  tokens s sys = 0 → threads sys !! i = Some th →
  tokens_wq s (m_q (sh_of sys)) = 0 ∧ tokens_code s (code th) = 0.
Proof.
  unfold tokens. intros Hz Hi.
  pose proof (sum_list_with_lookup (λ t, tokens_code s (code t)) _ _ _ Hi) as Hle.
  simpl in Hle. lia.
Qed.

Lemma step_stuck s sys sys' :
  stuck s sys → step sys sys' →
  stuck s sys'
  ∧ ∃ more, q (strands (sh_of sys') s) = q (strands (sh_of sys) s) ++ more.
Proof.
  intros [Hrun Hz] [i th sh' th' Hi Hstep].
  destruct (tokens_zero _ _ _ _ Hz Hi) as [Hwq Hcode].
  destruct (thread_step_stuck _ _ _ _ s Hstep Hrun Hwq Hcode)
    as (Hrun' & Hwq' & Hcode' & Hq).
  split; [|done]. split; [done|].
  unfold tokens in *; simpl.
  pose proof (sum_list_with_insert (λ t, tokens_code s (code t)) _ i th th' Hi)
    as Hsum; simpl in Hsum. lia.
Qed.

Lemma rtc_step_stuck s sys sys' :
  stuck s sys → rtc step sys sys' →
  stuck s sys'
  ∧ ∃ more, q (strands (sh_of sys') s) = q (strands (sh_of sys) s) ++ more.
Proof.
  intros Hst Hrtc. induction Hrtc as [sys|sys1 sys2 sys3 Hstep _ IH].
  - split; [done|]. exists []. by rewrite app_nil_r.
  - destruct (step_stuck _ _ _ Hst Hstep) as [Hst2 [m1 Hq1]].
    destruct (IH Hst2) as [Hst3 [m2 Hq2]]. split; [done|].
    exists (m1 ++ m2). by rewrite Hq2, Hq1, app_assoc.
Qed.

Lemma stuck_not_executing s sys i th :
  wf_system sys → stuck s sys → threads sys !! i = Some th →
  executing s th = false.
Proof.
  intros [Hth _] [_ Hz] Hi.
  destruct (tokens_zero _ _ _ _ Hz Hi) as [_ Hcode].
  pose proof (Forall_lookup_1 _ _ _ _ Hth Hi) as (_ & _ & Hwf).
  destruct (executing s th) eqn:He; [|done].
  apply executing_owned in He; [lia|done].
Qed.

(** * The claims *)

(** C1: no two handlers of one strand execute concurrently.  In every
    reachable state, if thread [i] and thread [j] are both executing a handler
    of strand [s] then they are the same thread; the executing thread holds
    the strand's only ownership token in its own continuation and the strand
    is marked running. *)
Theorem strand_mutual_exclusion sys s i j ti tj :
  reachable sys →
  threads sys !! i = Some ti → threads sys !! j = Some tj →
  executing s ti = true → executing s tj = true →
  i = j
  ∧ running (strands (sh_of sys) s) = true
  ∧ tokens_code s (code ti) = 1
  ∧ tokens s sys = 1.
Proof.
  intros [Hth Htok]%reachable_wf Hi Hj Hei Hej.
  pose proof (Forall_lookup_1 _ _ _ _ Hth Hi) as (_ & _ & Hwi).
  pose proof (Forall_lookup_1 _ _ _ _ Hth Hj) as (_ & _ & Hwj).
  apply executing_owned in Hei, Hej; [|done..].
  specialize (Htok s). unfold tokens, cap in *.
  pose proof (sum_list_with_lookup (λ t, tokens_code s (code t)) _ _ _ Hi) as Hle.
  simpl in Hle.
  destruct (running (strands (sh_of sys) s)); [|lia].
  split_and!; [|done|lia..].
  destruct (decide (i = j)) as [|Hne]; [done|].
  pose proof (sum_list_with_two (λ t, tokens_code s (code t)) _ _ _ _ _ Hne Hi Hj)
    as Htwo; simpl in Htwo. lia.
Qed.

Lemma strand_mutual_exclusion_witness :
  1 = 1
  ∧ running (strands (sh_of reentrant_sys) 0) = true
  ∧ tokens_code 0 (code reentrant_worker) = 1
  ∧ tokens 0 reentrant_sys = 1.
Proof.
  apply (strand_mutual_exclusion reentrant_sys 0 1 1
           reentrant_worker reentrant_worker).
  - apply schedule_reachable.
  - reflexivity.
  - reflexivity.
  - reflexivity.
  - reflexivity.
Defined.


(** C3: post enqueues the handler in the transaction that reads and sets
    [running]: after the step the strand's cell holds [running = true] and
    the queue with the handler appended, and nothing else of the shared state
    has changed.  The posting thread continues with its caller's code, so it
    does not call the handler, preceded by the push of a drain task exactly
    when [running] was false.  That push appends one closure to the work
    queue and touches nothing else, and the closure, once a consumer calls
    it, enters [run] of this strand. *)
Theorem post_enqueues_and_triggers sh th s h k :
  code th = IUser (APost s h) :: k →
  (∃ sh',
     thread_step sh th
     = Next sh' (set_code (if running (strands sh s) then k
                           else IPushRun s :: k) th)
     ∧ strands sh' s = mkData true (q (strands sh s) ++ [h])
     ∧ (∀ s', s' ≠ s → strands sh' s' = strands sh s')
     ∧ m_q sh' = m_q sh
     ∧ out sh' = out sh)
  ∧ post_txn h (strands sh s)
    = (negb (running (strands sh s)), mkData true (q (strands sh s) ++ [h]))
  ∧ (∀ sh1 th1 k1,
       code th1 = IPushRun s :: k1 →
       ∃ sh2, thread_step sh1 th1 = Next sh2 (set_code k1 th1)
              ∧ m_q sh2 = m_q sh1 ++ [RunStrand s]
              ∧ (∀ s', strands sh2 s' = strands sh1 s')
              ∧ out sh2 = out sh1)
  ∧ (∀ sh1 th1 k1,
       code th1 = IWork (RunStrand s) :: k1 →
       thread_step sh1 th1 = Next sh1 (set_code (IRun s :: k1) th1)).
Proof.
  intros Hcode. split_and!.
  - unfold thread_step, user_step, post_call, Monitor_call.
    rewrite Hcode, post_txn_spec; simpl.
    eexists. split.
    + by destruct (running (strands sh s)).
    + simpl. rewrite fn_lookup_insert. split_and!; try done.
      by intros s' Hs'; rewrite fn_lookup_insert_ne.
  - by rewrite post_txn_spec.
  - intros sh1 th1 k1 Hc. unfold thread_step. rewrite Hc.
    by eexists.
  - intros sh1 th1 k1 Hc. unfold thread_step. by rewrite Hc.
Qed.

(** C5: a dispatch made by the thread that owns the strand calls the handler
    at once, before dispatch returns to its caller, and leaves the shared
    state, hence the strand's cell, as it was. *)
Theorem reentrant_dispatch_runs_inline sys i th s h k :
  reachable sys →
  threads sys !! i = Some th →
  code th = IUser (ADispatch s h) :: k →
  runningInThisThread s th = true →
  thread_step (sh_of sys) th = Next (sh_of sys) (set_code (IHandler s h :: k) th)
  ∧ (∀ body, h = Fn body →
       thread_step (sh_of sys) (set_code (IHandler s h :: k) th)
       = Next (sh_of sys) (set_code (map IUser body ++ IHandlerEnd s :: k) th)).
Proof.
  intros [Hth _]%reachable_wf Hi Hcode Hrun.
  pose proof (Forall_lookup_1 _ _ _ _ Hth Hi) as Hwf.
  pose proof (owner_can_dispatch _ _ Hwf Hrun) as Hcan.
  split; [|by intros body ->].
  unfold thread_step, user_step, dispatch_call.
  by rewrite Hcode, Hcan, Hrun.
Qed.

(** C6: outside the executor's loop dispatch is post: both calls take the same
    step.  After it the strand's cell holds [running = true] and the queue
    with the handler appended, and nothing else of the shared state has
    changed; the thread continues with its caller's code, so the handler is
    not called, preceded by the push of a drain task exactly when [running]
    was false; that push appends one drain closure to the work queue.  A
    thread outside the loop is never found executing a handler of any
    strand. *)
Theorem dispatch_outside_executor_is_post sh th s h k :
  canDispatch th = false →
  thread_step sh (set_code (IUser (ADispatch s h) :: k) th)
  = thread_step sh (set_code (IUser (APost s h) :: k) th)
  ∧ (∃ sh',
       thread_step sh (set_code (IUser (ADispatch s h) :: k) th)
       = Next sh' (set_code (if running (strands sh s) then k
                             else IPushRun s :: k) th)
       ∧ strands sh' s = mkData true (q (strands sh s) ++ [h])
       ∧ (∀ s', s' ≠ s → strands sh' s' = strands sh s')
       ∧ m_q sh' = m_q sh
       ∧ out sh' = out sh)
  ∧ (∀ sh1, ∃ sh2,
       thread_step sh1 (set_code (IPushRun s :: k) th)
       = Next sh2 (set_code k th)
       ∧ m_q sh2 = m_q sh1 ++ [RunStrand s]
       ∧ (∀ s', strands sh2 s' = strands sh1 s')
       ∧ out sh2 = out sh1)
  ∧ (∀ sys i s', reachable sys → threads sys !! i = Some th →
       executing s' th = false).
Proof.
  intros Hcan.
  assert (canDispatch (set_code (IUser (ADispatch s h) :: k) th) = false) as Hcan'
    by done.
  split_and!.
  - unfold thread_step, user_step, dispatch_call, post_call, Monitor_call; simpl.
    by rewrite Hcan'.
  - unfold thread_step, user_step, dispatch_call, post_call, Monitor_call; simpl.
    rewrite Hcan', post_txn_spec; simpl.
    eexists. split.
    + by destruct (running (strands sh s)).
    + simpl. rewrite fn_lookup_insert. split_and!; try done.
      by intros s' Hs'; rewrite fn_lookup_insert_ne.
  - intros sh1. by eexists.
  - intros sys i s' [Hth _]%reachable_wf Hi.
    pose proof (Forall_lookup_1 _ _ _ _ Hth Hi) as Hwf.
    destruct (executing s' th) eqn:Hex; [|done].
    apply executing_can_dispatch in Hex; [congruence|done].
Qed.

(** C7: the cell is Idle ([running] false, queue empty) or Owned ([running]
    true), never anything else: the invariant "not running implies empty
    queue" holds of a fresh cell, every transaction of dispatch, post and the
    drain loop keeps it, and so it holds in every reachable state. *)
Theorem cell_idle_or_owned d h :
  strand_inv d →
  has_shape Data_init Idle
  ∧ (has_shape d Idle ∨ has_shape d Owned)
  ∧ ¬ (has_shape d Idle ∧ has_shape d Owned)
  ∧ strand_inv (dispatch_txn h d).2
  ∧ strand_inv (post_txn h d).2
  ∧ strand_inv (run_body d).2
  ∧ (∀ r, run_txn d = Some r → strand_inv r.2)
  ∧ (∀ sys s, reachable sys →
       has_shape (strands (sh_of sys) s) Idle
       ∨ has_shape (strands (sh_of sys) s) Owned).
Proof.
  intros Hd. split_and!.
  - done.
  - by apply strand_inv_shape.
  - simpl. intros [[? _] ?]. congruence.
  - by apply strand_inv_dispatch.
  - apply strand_inv_post.
  - by apply strand_inv_run_body.
  - intros r [_ ->]%run_txn_Some. by apply strand_inv_run_body.
  - intros sys s Hr. by apply strand_inv_shape, reachable_strand_inv.
Qed.

(** C8: the consumer loop of the work queue.  With the queue empty the thread
    waits.  Otherwise it pops the front item: a real item is called and the
    loop goes on; the shutdown marker makes the thread push one marker and
    leave the loop, and nothing else makes it leave.  [stop] pushes one
    marker. *)
Theorem shutdown_marker_relay sh th k :
  code th = IWQPop :: k →
  (m_q sh = [] → thread_step sh th = Blocked)
  ∧ (∀ w rest, m_q sh = w :: rest →
       thread_step sh th =
         Next (mkShared (strands sh) rest (out sh))
              (set_code (if is_marker w then IWQShutdown :: k
                         else IWork w :: IWQPop :: k) th))
  ∧ (∀ sh' th', thread_step sh th = Next sh' th' →
       (code th' = IWQShutdown :: k ∧ m_q sh = marker :: m_q sh')
       ∨ (∃ w, is_marker w = false ∧ m_q sh = w :: m_q sh'
               ∧ code th' = IWork w :: IWQPop :: k))
  ∧ (∀ sh1, thread_step sh1 (set_code (IWQShutdown :: k) th)
            = Next (push marker sh1) (set_code k th))
  ∧ (∀ sh1 k1, thread_step sh1 (set_code (IUser AStop :: k1) th)
               = Next (push marker sh1) (set_code k1 th))
  ∧ (∀ sh1, m_q (push marker sh1) = m_q sh1 ++ [marker]).
Proof.
  intros Hcode. unfold thread_step. rewrite Hcode. split_and!; try done.
  - by intros ->.
  - by intros w rest ->.
  - intros sh' th' Hstep. destruct (m_q sh) as [|w rest]; [done|].
    simplify_eq/=. destruct w as [[|body]|s]; simpl; [by left|right..].
    + by exists (Task (Fn body)).
    + by exists (RunStrand s).
Qed.

(** C9: the drain loop is only ever entered with ownership, so in a reachable
    state no thread can fail [assert(data.running)]: a thread at the head of
    the loop finds [running] true.  Were it false there, the step would be the
    abort. *)
Theorem drain_assert_holds sys i th :
  reachable sys →
  threads sys !! i = Some th →
  thread_step (sh_of sys) th ≠ AssertFail
  ∧ (∀ s k, code th = IDrain s :: k → running (strands (sh_of sys) s) = true)
  ∧ (∀ sh s k, code th = IDrain s :: k → running (strands sh s) = false →
       thread_step sh th = AssertFail).
Proof.
  intros [Hth Htok]%reachable_wf Hi.
  assert (∀ s k, code th = IDrain s :: k →
                 running (strands (sh_of sys) s) = true) as Hrun.
  { intros s k Hcode. specialize (Htok s). unfold tokens, cap in Htok.
    pose proof (sum_list_with_lookup (λ t, tokens_code s (code t)) _ _ _ Hi)
      as Hle; simpl in Hle.
    rewrite Hcode in Hle; simpl in Hle.
    rewrite bool_decide_eq_true_2 in Hle by done.
    destruct (running (strands (sh_of sys) s)); [done|lia]. }
  split_and!; [|done|].
  - intros Hfail. destruct th as [cw cst [|instr k]]; [done|].
    unfold thread_step, user_step, dispatch_call, post_call, Monitor_call in Hfail.
    simpl in Hfail. repeat case_match; simplify_eq/=.
    txn_specs. specialize (Hrun _ _ eq_refl). congruence.
  - intros sh s k Hcode Hfalse. unfold thread_step, Monitor_call, run_txn.
    by rewrite Hcode, Hfalse.
Qed.

(** C10: an empty callable at the front of a strand's queue.  The drain loop
    pops it, calls nothing and returns, leaving [running] true and the
    handlers queued behind it in place.  From then on the strand is stuck:
    in every later state [running] is still true, those handlers are still
    at the front of the queue, no drain task or draining thread exists, no
    post triggers one, and no thread executes a handler of the strand. *)
Theorem empty_callable_wedges_strand sys i th s k rest :
  reachable sys →
  threads sys !! i = Some th →
  code th = IDrain s :: k →
  q (strands (sh_of sys) s) = Null :: rest →
  let sh' := set_strand s (mkData true rest) (sh_of sys) in
  let sys' := mkSystem sh' (<[i := set_code k th]> (threads sys)) in
  thread_step (sh_of sys) th = Next sh' (set_code k th)
  ∧ step sys sys'
  ∧ ∀ sys'', rtc step sys' sys'' →
      running (strands (sh_of sys'') s) = true
      ∧ (∃ more, q (strands (sh_of sys'') s) = rest ++ more)
      ∧ tokens s sys'' = 0
      ∧ (∀ h, (post_txn h (strands (sh_of sys'') s)).1 = false)
      ∧ (∀ j tj, threads sys'' !! j = Some tj → executing s tj = false).
Proof.
  intros Hreach Hi Hcode Hq sh' sys'.
  pose proof (reachable_wf _ Hreach) as Hwf.
  destruct Hwf as [Hth Htok].
  pose proof (Htok s) as Hs. unfold tokens, cap in Hs.
  pose proof (sum_list_with_lookup (λ t, tokens_code s (code t)) _ _ _ Hi)
    as Hle; simpl in Hle.
  rewrite Hcode in Hle; simpl in Hle.
  rewrite bool_decide_eq_true_2 in Hle by done.
  destruct (running (strands (sh_of sys) s)) eqn:Hrun; [|lia].
  assert (thread_step (sh_of sys) th = Next sh' (set_code k th)) as Hstep.
  { unfold thread_step, Monitor_call, run_txn, run_body.
    by rewrite Hcode, Hrun, Hq. }
  assert (step sys sys') as Hsys by by econstructor.
  assert (stuck s sys') as Hstuck.
  { split; [simpl; by rewrite fn_lookup_insert|]. unfold tokens; simpl.
    pose proof (sum_list_with_insert (λ t, tokens_code s (code t)) _ i th
                  (set_code k th) Hi) as Hsum; simpl in Hsum.
    rewrite Hcode in Hsum; simpl in Hsum.
    rewrite bool_decide_eq_true_2 in Hsum by done. lia. }
  split_and!; [done..|].
  intros sys'' Hrtc.
  destruct (rtc_step_stuck _ _ _ Hstuck Hrtc) as [[Hrun'' Hz''] [more Hmore]].
  assert (wf_system sys'') as Hwf''.
  { eapply rtc_step_wf; [|exact Hrtc]. eapply step_wf; [by split|done]. }
  split_and!; [done| |done| |].
  - exists more. rewrite Hmore. simpl. by rewrite fn_lookup_insert.
  - intros h. by rewrite post_txn_spec, Hrun''.
  - intros j tj Hj. by eapply stuck_not_executing.
Qed.

(** What one iteration of the drain loop does, by the front of the queue. *)
Lemma drain_iteration sh th s k :
  code th = IDrain s :: k →
  running (strands sh s) = true →
  (q (strands sh s) = [] →
     thread_step sh th = Next (set_strand s (mkData false []) sh) (set_code k th))
  ∧ (∀ h rest, q (strands sh s) = h :: rest →
       thread_step sh th =
         Next (set_strand s (mkData true rest) sh)
              (set_code (if nonempty h then IHandler s h :: IDrain s :: k
                         else k) th)).
Proof.
  intros Hcode Hrun. unfold thread_step, Monitor_call, run_txn, run_body.
  rewrite Hcode, Hrun. split; [by intros ->|by intros h rest ->].
Qed.

(** C4 fails on an empty callable: after [post(nullptr); post(f)] the drain
    loop pops the empty callable, returns with [running] still true and
    leaves [f] queued; the worker then waits on the empty work queue, the
    client has finished, and [f] has had no effect. *)
Theorem drain_returns_early_on_empty_callable :
  threads wedge_sys !! 1 = Some draining_worker
  ∧ strands (sh_of wedge_sys) 0 = mkData true [Null; Fn [AWork 1]]
  ∧ thread_step (sh_of wedge_sys) draining_worker
    = Next (set_strand 0 (mkData true [Fn [AWork 1]]) (sh_of wedge_sys))
           (set_code [ICtxExit 0; IWQPop; IWQCtxExit] draining_worker)
  ∧ strands (sh_of wedge_final) 0 = mkData true [Fn [AWork 1]]
  ∧ out (sh_of wedge_final) = []
  ∧ m_q (sh_of wedge_final) = []
  ∧ threads wedge_final = [client []; worker []]
  ∧ thread_step (sh_of wedge_final) (client []) = Finished
  ∧ thread_step (sh_of wedge_final) (worker []) = Blocked.
Proof. by split_and!. Qed.

(** One [stop] ends both consumers, one after the other, and the marker
    pushed by the last one stays in the queue. *)
Example stop_relay_two_workers :
  threads relay_final = [client []; client []; client []]
  ∧ m_q (sh_of relay_final) = [marker].
Proof. by split. Qed.

(** The sample of the repository under a round-robin schedule: every handler
    has run once, every thread has returned, one marker is left. *)
Example strand_sample_completes :
  out (sh_of sample_final) = seq 0 20
  ∧ m_q (sh_of sample_final) = [marker]
  ∧ threads sample_final = replicate 5 (client []).
Proof. by vm_compute. Qed.

(** ** Witnesses *)


Lemma post_enqueues_and_triggers_witness :
  ∃ sh',
    thread_step idle_shared
      (client [IUser (APost 0 (Fn [AWork 1])); IUser AStop])
    = Next sh' (client [IPushRun 0; IUser AStop])
    ∧ strands sh' 0 = mkData true [Fn [AWork 1]]
    ∧ (∀ s', s' ≠ 0 → strands sh' s' = Data_init)
    ∧ m_q sh' = []
    ∧ out sh' = [].
Proof.
  refine (proj1 (post_enqueues_and_triggers idle_shared
                   (client [IUser (APost 0 (Fn [AWork 1])); IUser AStop])
                   0 (Fn [AWork 1]) [IUser AStop] _)); reflexivity.
Defined.

Lemma reentrant_dispatch_runs_inline_witness :
  thread_step (sh_of reentrant_sys) reentrant_worker
  = Next (sh_of reentrant_sys)
         (set_code (IHandler 0 (Fn [AWork 2])
                    :: [IHandlerEnd 0; IDrain 0; ICtxExit 0; IWQPop; IWQCtxExit])
                   reentrant_worker).
Proof.
  refine (proj1 (reentrant_dispatch_runs_inline reentrant_sys 1 reentrant_worker
                   0 (Fn [AWork 2])
                   [IHandlerEnd 0; IDrain 0; ICtxExit 0; IWQPop; IWQCtxExit]
                   _ _ _ _)).
  - apply schedule_reachable.
  - reflexivity.
  - reflexivity.
  - reflexivity.
Defined.

Lemma dispatch_outside_executor_is_post_witness :
  thread_step idle_shared (client [IUser (ADispatch 0 (Fn [AWork 1]))])
  = thread_step idle_shared (client [IUser (APost 0 (Fn [AWork 1]))])
  ∧ (∃ sh',
       thread_step idle_shared (client [IUser (ADispatch 0 (Fn [AWork 1]))])
       = Next sh' (client [IPushRun 0])
       ∧ strands sh' 0 = mkData true [Fn [AWork 1]]
       ∧ (∀ s', s' ≠ 0 → strands sh' s' = Data_init)
       ∧ m_q sh' = []
       ∧ out sh' = []).
Proof.
  split.
  - refine (proj1 (dispatch_outside_executor_is_post idle_shared (client [])
                     0 (Fn [AWork 1]) [] _)); reflexivity.
  - refine (proj1 (proj2 (dispatch_outside_executor_is_post idle_shared
                            (client []) 0 (Fn [AWork 1]) [] _))); reflexivity.
Defined.

Lemma cell_idle_or_owned_witness :
  strand_inv (post_txn Null (mkData true [Fn [AWork 1]])).2.
Proof.
  refine (proj1 (proj2 (proj2 (proj2 (proj2
            (cell_idle_or_owned (mkData true [Fn [AWork 1]]) Null _)))))).
  intros Hfalse; simpl in Hfalse; discriminate.
Defined.

Lemma shutdown_marker_relay_witness :
  thread_step marker_shared (worker [])
  = Next (mkShared (strands marker_shared) [Task (Fn [AWork 3])] [])
         (mkThread [wq_id] [] [IWQShutdown; IWQCtxExit]).
Proof.
  refine (proj1 (proj2 (shutdown_marker_relay marker_shared (worker [])
                          [IWQCtxExit] _))
                marker [Task (Fn [AWork 3])] _); reflexivity.
Defined.

Lemma drain_assert_holds_witness :
  thread_step (sh_of draining_sys) draining_worker ≠ AssertFail.
Proof.
  refine (proj1 (drain_assert_holds draining_sys 1 draining_worker _ _)).
  - apply schedule_reachable.
  - reflexivity.
Defined.

Lemma empty_callable_wedges_strand_witness :
  running (strands (sh_of wedge_final) 0) = true
  ∧ (∃ more, q (strands (sh_of wedge_final) 0) = [Fn [AWork 1]] ++ more)
  ∧ ∀ h, (post_txn h (strands (sh_of wedge_final) 0)).1 = false.
Proof.
  destruct (empty_callable_wedges_strand wedge_sys 1 draining_worker 0
              [ICtxExit 0; IWQPop; IWQCtxExit] [Fn [AWork 1]])
    as (_ & _ & Hlater).
  - apply schedule_reachable.
  - reflexivity.
  - reflexivity.
  - reflexivity.
  - destruct (Hlater wedge_final) as (Hrun & Hq & _ & Hpost & _).
    + apply (schedule_rtc [1; 1; 1; 1]).
    + by split_and!.
Defined.

(** * Further properties of the code *)

(** ** Where handlers run, and what the registries tell *)

Lemma strand_ctxs_elem s c : s ∈ strand_ctxs c ↔ ICtxExit s ∈ c.
Proof.
  induction c as [|i k IH]; simpl; [by rewrite !elem_of_nil|].
  destruct i; rewrite ?elem_of_cons, IH; try (split; [by auto|by intros [?|?]]).
  split; intros [?|?]; simplify_eq; auto.
Qed.

Lemma wq_ctxs_elem c : wq_id ∈ wq_ctxs c ↔ IWQCtxExit ∈ c.
Proof.
  induction c as [|i k IH]; simpl; [by rewrite !elem_of_nil|].
  destruct i; rewrite ?elem_of_cons, ?IH; try (split; [by auto|by intros [?|?]]).
  split; auto.
Qed.

(** X1: the guarantee in the header of [Strand.h] that handlers are only
    executed from the processor.  In every reachable state a thread that is
    executing a handler of some strand is inside [WorkQueue::run]. *)
Theorem handlers_run_on_executor_threads sys i th s :
  reachable sys →
  threads sys !! i = Some th →
  executing s th = true →
  canDispatch th = true ∧ IWQCtxExit ∈ code th.
Proof.
  intros [Hth _]%reachable_wf Hi Hex.
  pose proof (Forall_lookup_1 _ _ _ _ Hth Hi) as Hwf.
  pose proof (executing_can_dispatch _ _ Hwf Hex) as Hcan.
  split; [done|]. destruct Hwf as (_ & Hcw & _).
  apply wq_ctxs_elem. rewrite <-Hcw. by apply bool_decide_eq_true in Hcan.
Qed.

(** X2: the check [runningInThisThread()] is sound.  When client code runs on
    a thread for which the check holds, the strand is marked running, this
    thread holds its only ownership token, and no other thread is executing a
    handler of the strand or about to drain it. *)
Theorem running_in_this_thread_is_ownership sys i th s a k :
  reachable sys →
  threads sys !! i = Some th →
  code th = IUser a :: k →
  runningInThisThread s th = true →
  running (strands (sh_of sys) s) = true
  ∧ tokens_code s (code th) = 1
  ∧ tokens_wq s (m_q (sh_of sys)) = 0
  ∧ ∀ j tj, threads sys !! j = Some tj → j ≠ i →
      tokens_code s (code tj) = 0 ∧ executing s tj = false.
Proof.
  intros Hreach Hi Hcode Hrun.
  pose proof (reachable_wf _ Hreach) as [Hth Htok].
  pose proof (Forall_lookup_1 _ _ _ _ Hth Hi) as (Hcs & _ & Hwf).
  apply bool_decide_eq_true in Hrun. rewrite Hcs in Hrun.
  destruct (owner_below s (code th) Hwf Hrun) as [Hown|[k' Hk']];
    [|congruence].
  specialize (Htok s). unfold tokens, cap in Htok.
  pose proof (sum_list_with_lookup (λ t, tokens_code s (code t)) _ _ _ Hi) as Hle.
  simpl in Hle.
  destruct (running (strands (sh_of sys) s)); [|lia].
  split_and!; [done|lia..|].
  intros j tj Hj Hne.
  pose proof (sum_list_with_two (λ t, tokens_code s (code t)) _ _ _ _ _ Hne Hj Hi)
    as Htwo; simpl in Htwo.
  assert (tokens_code s (code tj) = 0) as Hz by lia. split; [done|].
  pose proof (Forall_lookup_1 _ _ _ _ Hth Hj) as (_ & _ & Hwj).
  destruct (executing s tj) eqn:Hex; [|done].
  apply executing_owned in Hex; [lia|done].
Qed.

(** X3: the two registry queries mean what their comments say.  In every
    reachable state [canDispatch()] holds exactly on the threads that have an
    activation of [WorkQueue::run] open, and [runningInThisThread()] exactly
    on the threads that have a call context of that strand open. *)
Theorem registry_queries_track_open_scopes sys i th :
  reachable sys →
  threads sys !! i = Some th →
  (canDispatch th = true ↔ IWQCtxExit ∈ code th)
  ∧ (∀ s, runningInThisThread s th = true ↔ ICtxExit s ∈ code th)
  ∧ (code th = [] → cs_wq th = [] ∧ cs_strand th = []).
Proof.
  intros [Hth _]%reachable_wf Hi.
  pose proof (Forall_lookup_1 _ _ _ _ Hth Hi) as (Hcs & Hcw & _).
  unfold canDispatch, runningInThisThread, Callstack.contains.
  rewrite Hcs, Hcw. split_and!.
  - rewrite bool_decide_eq_true. apply wq_ctxs_elem.
  - intros s. rewrite bool_decide_eq_true. apply strand_ctxs_elem.
  - by intros ->.
Qed.

(** ** The shutdown marker is never lost *)

Lemma markers_code_user body k :
  markers_code (map IUser body ++ k) = markers_code k.
Proof. by induction body. Qed.

Lemma markers_wq_snoc w x :
  markers_wq (w ++ [x]) = markers_wq w + (if is_marker x then 1 else 0).
Proof. induction w as [|y w IH]; simpl; lia. Qed.

Lemma thread_step_markers sh th sh' th' :
  thread_step sh th = Next sh' th' →
  markers_wq (m_q sh) + markers_code (code th)
  ≤ markers_wq (m_q sh') + markers_code (code th').
Proof.
  destruct th as [cw cst [|i k]]; [done|].
  intros Hstep; step_cases Hstep.
  all: rewrite ?markers_code_user, ?markers_wq_snoc; simpl; try lia.
  all: repeat case_match; simplify_eq/=; lia.
Qed.

Lemma step_markers sys sys' : step sys sys' → markers sys ≤ markers sys'.
Proof.
  intros [i th sh' th' Hi Hstep]. unfold markers; simpl.
  pose proof (sum_list_with_insert (λ t, markers_code (code t)) _ i th th' Hi)
    as Hsum; simpl in Hsum.
  pose proof (thread_step_markers _ _ _ _ Hstep). lia.
Qed.

Lemma rtc_step_markers sys sys' : rtc step sys sys' → markers sys ≤ markers sys'.
Proof.
  induction 1 as [|sys1 sys2 sys3 Hstep _ IH]; [done|].
  pose proof (step_markers _ _ Hstep). lia.
Qed.

Lemma markers_wq_pos w : 0 < markers_wq w → marker ∈ w.
Proof.
  induction w as [|x w IH]; simpl; [lia|].
  destruct x as [[|body]|s]; simpl; rewrite elem_of_cons; auto.
Qed.

Lemma markers_code_pos c : 0 < markers_code c → IWQShutdown ∈ c.
Proof.
  induction c as [|i k IH]; simpl; [lia|].
  destruct i; rewrite elem_of_cons; auto.
Qed.

Lemma sum_list_with_pos {A} (f : A → nat) (l : list A) :
  0 < sum_list_with f l → ∃ i x, l !! i = Some x ∧ 0 < f x.
Proof.
  induction l as [|a l IH]; simpl; [lia|]. intros Hpos.
  destruct (decide (0 < f a)) as [Ha|Ha]; [by exists 0, a|].
  destruct IH as (i & x & Hi & Hx); [lia|]. by exists (S i), x.
Qed.

(** X4: shutdown is permanent.  No step lowers the number of markers in
    flight, so once [stop] has pushed a marker every later state has a marker
    in the queue or a consumer about to push one: the queue cannot be used
    again after it was stopped. *)
Theorem shutdown_is_permanent sys sys' th k i :
  threads sys !! i = Some th →
  code th = IUser AStop :: k →
  rtc step (mkSystem (push marker (sh_of sys))
                     (<[i := set_code k th]> (threads sys))) sys' →
  markers sys < markers sys'
  ∧ (marker ∈ m_q (sh_of sys')
     ∨ ∃ j tj, threads sys' !! j = Some tj ∧ IWQShutdown ∈ code tj).
Proof.
  intros Hi Hcode Hrtc. apply rtc_step_markers in Hrtc.
  assert (markers sys < markers sys') as Hlt.
  { unfold markers in *; simpl in *. rewrite markers_wq_snoc in Hrtc.
    pose proof (sum_list_with_insert (λ t, markers_code (code t)) _ i th
                  (set_code k th) Hi) as Hsum; simpl in Hsum.
    rewrite Hcode in Hsum; simpl in *. lia. }
  split; [done|]. unfold markers in Hlt.
  destruct (decide (0 < markers_wq (m_q (sh_of sys')))) as [Hq|Hq].
  - left. by apply markers_wq_pos.
  - right. destruct (sum_list_with_pos (λ t, markers_code (code t)) (threads sys'))
      as (j & tj & Hj & Hpos); [lia|].
    exists j, tj. split; [done|]. by apply markers_code_pos.
Qed.

(** ** One thread running alone *)

Lemma list_insert_same {A} (l : list A) i x : l !! i = Some x → <[i := x]> l = l.
Proof.
  revert i. induction l as [|a l IH]; intros [|i] Hi; simplify_eq/=; [done|].
  by rewrite IH.
Qed.

Lemma list_insert_twice {A} (l : list A) i x y :
  <[i := y]> (<[i := x]> l) = <[i := y]> l.
Proof.
  revert i. induction l as [|a l IH]; intros [|i]; simpl; [done..|].
  by rewrite IH.
Qed.

Lemma schedule_solo n i sys th :
  threads sys !! i = Some th →
  schedule (replicate n i) sys
  = mkSystem (solo n (sh_of sys) th).1
             (<[i := (solo n (sh_of sys) th).2]> (threads sys)).
Proof.
  revert sys th. induction n as [|n IH]; intros [sh ths] th Hi; simpl in *.
  { by rewrite list_insert_same. }
  unfold sched1; simpl. rewrite Hi.
  destruct (thread_step sh th) as [sh' th'| | | |] eqn:Hstep; simpl.
  2-5: rewrite (list_insert_same ths) by done.
  2-5: clear IH; induction n as [|n IHn]; simpl; [done|];
       unfold sched1; simpl; by rewrite Hi, Hstep.
  rewrite (IH _ th'); simpl.
  - by rewrite list_insert_twice.
  - apply list_lookup_insert_eq. by eapply lookup_lt_Some.
Qed.

Lemma solo_add n m sh th :
  solo (n + m) sh th = solo m (solo n sh th).1 (solo n sh th).2.
Proof.
  revert sh th. induction n as [|n IH]; intros sh th; simpl; [done|].
  destruct (thread_step sh th) eqn:Hstep; simpl; try apply IH.
  all: destruct m; simpl; by rewrite ?Hstep.
Qed.

(** The body of a job appends its effects to [out], in order. *)
Lemma solo_job_body ns k sh th :
  code th = map IUser (map AWork ns) ++ k →
  solo (length ns) sh th
  = (mkShared (strands sh) (m_q sh) (out sh ++ ns), set_code k th).
Proof.
  revert sh th. induction ns as [|n ns IH]; intros sh th Hcode; simpl.
  { rewrite app_nil_r. destruct sh, th; simpl in *. by subst. }
  unfold thread_step. rewrite Hcode; simpl.
  rewrite (IH _ (set_code (map IUser (map AWork ns) ++ k) th)) by done.
  simpl. by rewrite <-app_assoc.
Qed.

Lemma solo_S n sh th sh' th' :
  thread_step sh th = Next sh' th' → solo (S n) sh th = solo n sh' th'.
Proof. intros Hstep. simpl. by rewrite Hstep. Qed.

(** One job at the front of the strand's queue: popped, called, run to its
    end; the thread is back at the head of the drain loop. *)
Lemma solo_drain_one ns rest s k sh th :
  code th = IDrain s :: k →
  running (strands sh s) = true →
  q (strands sh s) = job ns :: rest →
  solo (length ns + 3) sh th
  = (mkShared (<[s := mkData true rest]> (strands sh)) (m_q sh) (out sh ++ ns),
     set_code (IDrain s :: k) th).
Proof.
  intros Hcode Hrun Hq.
  replace (length ns + 3) with (S (S (length ns + 1))) by lia.
  erewrite solo_S; last first.
  { unfold thread_step, Monitor_call, run_txn, run_body.
    by rewrite Hcode, Hrun, Hq. }
  erewrite solo_S by done.
  rewrite solo_add. erewrite solo_job_body by done. done.
Qed.

Lemma solo_drain nss s k sh th :
  code th = IDrain s :: k →
  running (strands sh s) = true →
  q (strands sh s) = map job nss →
  ∃ sh', solo (drain_steps nss) sh th = (sh', set_code k th)
    ∧ strands sh' s = mkData false []
    ∧ (∀ s', s' ≠ s → strands sh' s' = strands sh s')
    ∧ m_q sh' = m_q sh
    ∧ out sh' = out sh ++ concat nss.
Proof.
  revert sh th. induction nss as [|ns nss IH]; intros sh th Hcode Hrun Hq.
  - eexists. unfold drain_steps; simpl.
    unfold thread_step, Monitor_call, run_txn, run_body.
    rewrite Hcode, Hrun, Hq; simpl. split_and!; [done|..]; simpl.
    + by rewrite fn_lookup_insert.
    + intros s' Hne. by rewrite fn_lookup_insert_ne.
    + done.
    + by rewrite app_nil_r.
  - unfold drain_steps in *; simpl sum_list_with.
    rewrite <-Nat.add_assoc, solo_add.
    erewrite solo_drain_one by done. simpl.
    edestruct (IH (mkShared (<[s := mkData true (map job nss)]> (strands sh))
                            (m_q sh) (out sh ++ ns))
                  (set_code (IDrain s :: k) th))
      as (sh' & Hsolo & Hs & Hother & Hmq & Hout); simpl.
    { done. }
    { by rewrite fn_lookup_insert. }
    { by rewrite fn_lookup_insert. }
    exists sh'. split_and!; try done.
    + intros s' Hne. rewrite Hother by done. simpl. by rewrite fn_lookup_insert_ne.
    + rewrite Hout. simpl. by rewrite <-app_assoc.
Qed.

(** One job at the front of the work queue: popped, called, run to its end;
    the thread is back at the head of the consumer loop. *)
Lemma solo_consume_one ns rest k sh th :
  code th = IWQPop :: k →
  m_q sh = Task (job ns) :: rest →
  solo (length ns + 2) sh th
  = (mkShared (strands sh) rest (out sh ++ ns), set_code (IWQPop :: k) th).
Proof.
  intros Hcode Hq.
  replace (length ns + 2) with (S (S (length ns))) by lia.
  erewrite (solo_S _ _ _ _ (set_code (IWork (Task (job ns)) :: IWQPop :: k) th));
    last first.
  { unfold thread_step. by rewrite Hcode, Hq. }
  erewrite (solo_S _ _ _ _ (set_code (map IUser (map AWork ns) ++ IWQPop :: k) th))
    by reflexivity.
  by erewrite solo_job_body.
Qed.

Lemma solo_consume nss rest k sh th :
  code th = IWQPop :: k →
  m_q sh = map (λ ns, Task (job ns)) nss ++ marker :: rest →
  solo (consume_steps nss) sh th
  = (mkShared (strands sh) (rest ++ [marker]) (out sh ++ concat nss),
     set_code k th).
Proof.
  revert sh th. induction nss as [|ns nss IH]; intros sh th Hcode Hq.
  - unfold consume_steps; simpl.
    unfold thread_step. rewrite Hcode, Hq; simpl. by rewrite app_nil_r.
  - unfold consume_steps in *; simpl sum_list_with. simpl in Hq.
    rewrite <-Nat.add_assoc, solo_add.
    erewrite solo_consume_one by done. simpl.
    erewrite IH by done. simpl. by rewrite <-app_assoc.
Qed.

(** X5: the drain loop runs what is queued in the order it was queued.  A
    thread at the head of the loop, left alone with a queue of jobs, runs
    their bodies first to last, clears [running] on the empty queue and
    returns; no other strand and no work item is touched. *)
Theorem drain_runs_queue_in_order sys i th s k nss :
  threads sys !! i = Some th →
  code th = IDrain s :: k →
  running (strands (sh_of sys) s) = true →
  q (strands (sh_of sys) s) = map job nss →
  let sys' := schedule (replicate (drain_steps nss) i) sys in
  out (sh_of sys') = out (sh_of sys) ++ concat nss
  ∧ strands (sh_of sys') s = mkData false []
  ∧ (∀ s', s' ≠ s → strands (sh_of sys') s' = strands (sh_of sys) s')
  ∧ m_q (sh_of sys') = m_q (sh_of sys)
  ∧ threads sys' = <[i := set_code k th]> (threads sys).
Proof.
  intros Hi Hcode Hrun Hq sys'. unfold sys'.
  rewrite (schedule_solo _ _ _ th) by done.
  destruct (solo_drain nss s k (sh_of sys) th Hcode Hrun Hq)
    as (sh' & -> & Hs & Hother & Hmq & Hout).
  by split_and!.
Qed.

(** X6: one consumer runs the work items in the order they were pushed and
    stops at the marker.  A thread at the head of the loop of
    [WorkQueue::run], left alone with jobs followed by a marker, runs the
    bodies first to last, pops the marker, pushes one marker behind whatever
    else is queued and leaves the loop. *)
Theorem consumer_runs_items_in_order sys i th k nss rest :
  threads sys !! i = Some th →
  code th = IWQPop :: k →
  m_q (sh_of sys) = map (λ ns, Task (job ns)) nss ++ marker :: rest →
  schedule (replicate (consume_steps nss) i) sys
  = mkSystem (mkShared (strands (sh_of sys)) (rest ++ [marker])
                       (out (sh_of sys) ++ concat nss))
             (<[i := set_code k th]> (threads sys)).
Proof.
  intros Hi Hcode Hq.
  rewrite (schedule_solo _ _ _ th) by done.
  by rewrite (solo_consume nss rest k) by done.
Qed.

(** ** Programs that hand no empty callable to a strand *)

(** Cases of an invariant that is a boolean test on every callable in the
    queues and in the continuations. *)
Ltac forallb_cases Hq :=
  repeat match goal with
  | H : _ && _ = true |- _ => apply andb_true_iff in H as [? ?]
  end;
  split_and?; try done;
  rewrite ?forallb_app; simpl;
  try (let s0 := fresh "s" in
       intros s0; try split_strand; simpl; try done;
       specialize (Hq s0); repeat case_match; simplify_eq/=);
  rewrite ?forallb_app; simpl;
  repeat match goal with
  | H : _ && _ = true |- _ => apply andb_true_iff in H as [? ?]
  | H : ?x = true |- context [?x] => rewrite H
  | H : ?x = false |- context [?x] => rewrite H
  | H : q ?d = _ :: _, H' : context [q ?d] |- _ => rewrite H in H'; simpl in H'
  end; simpl; try done.

Lemma clean_instr_user body :
  forallb clean_instr (map IUser body) = forallb clean_action body.
Proof. induction body as [|a body IH]; simpl; [done|]. by rewrite IH. Qed.

Lemma thread_step_clean sh th sh' th' :
  clean_shared sh →
  forallb clean_instr (code th) = true →
  thread_step sh th = Next sh' th' →
  clean_shared sh' ∧ forallb clean_instr (code th') = true.
Proof.
  destruct th as [cw cst [|i k]]; [done|].
  intros [Hq Hw] Hth Hstep; simpl in *.
  step_cases Hstep; unfold clean_shared; simpl.
  all: rewrite ?forallb_app, ?clean_instr_user.
  all: forallb_cases Hq.
  specialize (Hq s). rewrite Heql in Hq; simpl in Hq.
  apply andb_true_iff in Hq as [-> _]. done.
Qed.

Lemma step_clean sys sys' : clean_system sys → step sys sys' → clean_system sys'.
Proof.
  intros [Hsh Hth] [i th sh' th' Hi Hstep].
  pose proof (Forall_lookup_1 _ _ _ _ Hth Hi) as Hc; simpl in Hc.
  destruct (thread_step_clean _ _ _ _ Hsh Hc Hstep) as [Hsh' Hc'].
  split; [done|]. simpl. by apply Forall_insert.
Qed.

Lemma boot_clean progs : clean_progs progs = true → clean_system (boot progs).
Proof.
  intros Hp. split; [done|]. simpl.
  apply Forall_fmap, Forall_forall. intros prog Hin; simpl.
  rewrite clean_instr_user.
  unfold clean_progs in Hp. rewrite forallb_forall in Hp.
  apply Hp. by apply list_elem_of_In.
Qed.

Lemma rtc_step_clean sys sys' :
  clean_system sys → rtc step sys sys' → clean_system sys'.
Proof. intros Hc Hrtc. induction Hrtc; eauto using step_clean. Qed.

(** With only non-empty callables in its queue a strand keeps its token
    until the drain loop clears [running]. *)
Lemma thread_step_tokens_eq sh th sh' th' s R :
  forallb clean_handler (q (strands sh s)) = true →
  thread_step sh th = Next sh' th' →
  tokens_wq s (m_q sh) + tokens_code s (code th) + R = cap (strands sh s) →
  tokens_wq s (m_q sh') + tokens_code s (code th') + R = cap (strands sh' s).
Proof.
  destruct th as [cw cst [|i k]]; [done|].
  intros Hq Hstep; step_cases Hstep.
  all: rewrite ?tokens_code_app, ?tokens_code_user, ?tokens_wq_snoc; simpl.
  all: try lia.
  all: unfold cap.
  all: try split_strand.
  all: simpl; repeat case_match; simplify_eq/=; try lia; try congruence.
  - rewrite Heql in Hq; simpl in Hq. by destruct h0.
  - by destruct w as [[|?]|?].
Qed.

Lemma rtc_step_tokens_eq s sys sys' :
  clean_system sys →
  tokens s sys = cap (strands (sh_of sys) s) →
  rtc step sys sys' →
  tokens s sys' = cap (strands (sh_of sys') s).
Proof.
  intros Hclean Heq Hrtc.
  induction Hrtc as [|sys1 sys2 sys3 Hstep _ IH]; [done|].
  apply IH; [by eapply step_clean|]. destruct Hclean as [[Hq _] _].
  destruct Hstep as [i th sh' th' Hi Hstep].
  unfold tokens in *; simpl.
  pose proof (sum_list_with_insert (λ t, tokens_code s (code t)) _ i th th' Hi)
    as Hsum; simpl in Hsum.
  pose proof (sum_list_with_lookup (λ t, tokens_code s (code t)) _ _ _ Hi) as Hle.
  simpl in Hle.
  pose proof (thread_step_tokens_eq _ _ _ _ s
                (sum_list_with (λ t, tokens_code s (code t)) (threads sys1)
                 - tokens_code s (code th)) (Hq s) Hstep).
  lia.
Qed.

Lemma boot_tokens s progs : tokens s (boot progs) = 0.
Proof.
  unfold tokens; simpl. induction progs as [|p progs IH]; simpl; [done|].
  rewrite tokens_code_user. simpl in *. lia.
Qed.

(** X7: no empty callable is ever called.  When the client code hands no
    empty callable to a strand, no thread of any state it can reach is about
    to call an empty [std::function]: the consumer loop and the drain loop
    test what they popped, and dispatch calls only what it was given. *)
Theorem clean_programs_call_no_empty_callable progs sys i th :
  clean_progs progs = true →
  rtc step (boot progs) sys →
  threads sys !! i = Some th →
  thread_step (sh_of sys) th ≠ BadCall
  ∧ (∀ s, Null ∉ q (strands (sh_of sys) s)).
Proof.
  intros Hp Hrtc Hi.
  pose proof (rtc_step_clean _ _ (boot_clean _ Hp) Hrtc) as [[Hq _] Hth].
  pose proof (Forall_lookup_1 _ _ _ _ Hth Hi) as Hc; simpl in Hc.
  split.
  - intros Hbad. destruct th as [cw cst [|instr k]]; [done|].
    unfold thread_step, user_step, dispatch_call, post_call, Monitor_call in Hbad.
    simpl in *. repeat case_match; simplify_eq/=.
  - intros s Hin. specialize (Hq s). rewrite forallb_forall in Hq.
    by specialize (Hq Null (proj1 (list_elem_of_In _ _) Hin)).
Qed.

(** X8: with handlers that return normally, a strand is never left running
    without an owner.  Client code here is a list of [action]s: every handler
    call returns, none leaves by an exception.  When such code hands no empty
    callable to a strand, in every state it can reach a strand marked running
    has exactly one owner (a drain closure in the work queue, the thread about
    to push it, or a thread entering or inside the drain loop) and an idle
    strand has none.  A handler that throws is outside this statement:
    [Strand::dispatch] and [Strand::run] catch nothing around [handler()]
    (lines 76 and 133), and only line 128 clears [running]. *)
Theorem clean_programs_keep_one_owner progs sys s :
  clean_progs progs = true →
  rtc step (boot progs) sys →
  tokens s sys = (if running (strands (sh_of sys) s) then 1 else 0)
  ∧ ¬ stuck s sys.
Proof.
  intros Hp Hrtc.
  pose proof (rtc_step_tokens_eq s _ sys (boot_clean _ Hp)) as Heq.
  rewrite boot_tokens in Heq. specialize (Heq eq_refl Hrtc).
  split; [done|]. intros [Hrun Hz]. unfold cap in Heq.
  rewrite Hrun in Heq. lia.
Qed.

(** X9: with no empty callable around the drain loop does what its comment
    says.  A step at the head of the loop either pops the front handler,
    which is non-empty, and goes on to call it with the loop still open, or
    finds the queue empty, clears [running] and returns; it returns in no
    other case. *)
Theorem clean_drain_returns_only_when_idle progs sys i th s k sh' th' :
  clean_progs progs = true →
  rtc step (boot progs) sys →
  threads sys !! i = Some th →
  code th = IDrain s :: k →
  thread_step (sh_of sys) th = Next sh' th' →
  (q (strands (sh_of sys) s) = [] ∧ strands sh' s = mkData false []
   ∧ code th' = k)
  ∨ (∃ body rest, q (strands (sh_of sys) s) = Fn body :: rest
       ∧ strands sh' s = mkData true rest
       ∧ code th' = IHandler s (Fn body) :: IDrain s :: k).
Proof.
  intros Hp Hrtc Hi Hcode Hstep.
  pose proof (rtc_step_clean _ _ (boot_clean _ Hp) Hrtc) as [[Hq _] _].
  specialize (Hq s).
  unfold thread_step, Monitor_call in Hstep. rewrite Hcode in Hstep.
  destruct (run_txn (strands (sh_of sys) s)) as [[h d]|] eqn:Htxn; [|done].
  apply run_txn_Some in Htxn as [Hrun Htxn]. unfold run_body in Htxn.
  destruct (q (strands (sh_of sys) s)) as [|h0 rest] eqn:Hqs; simplify_eq/=.
  - left. by rewrite fn_lookup_insert.
  - right. destruct h0 as [|body]; [done|]. exists body, rest.
    rewrite fn_lookup_insert, Hrun. done.
Qed.

(** ** Effects are performed once *)

Lemma bounded_instr_user B body :
  forallb (bounded_instr B) (map IUser body) = forallb (bounded_action B) body.
Proof. induction body as [|a body IH]; simpl; [done|]. by rewrite IH. Qed.

Lemma thread_step_bounded B sh th sh' th' :
  bounded_shared B sh →
  forallb (bounded_instr B) (code th) = true →
  thread_step sh th = Next sh' th' →
  bounded_shared B sh' ∧ forallb (bounded_instr B) (code th') = true.
Proof.
  destruct th as [cw cst [|i k]]; [done|].
  intros [Hq Hw] Hth Hstep; simpl in *.
  step_cases Hstep; unfold bounded_shared; simpl.
  all: rewrite ?forallb_app, ?bounded_instr_user.
  all: forallb_cases Hq.
  specialize (Hq s). rewrite Heql in Hq; simpl in Hq.
  apply andb_true_iff in Hq as [-> _]. done.
Qed.

Lemma step_bounded B sys sys' :
  bounded_system B sys → step sys sys' → bounded_system B sys'.
Proof.
  intros [Hsh Hth] [i th sh' th' Hi Hstep].
  pose proof (Forall_lookup_1 _ _ _ _ Hth Hi) as Hc; simpl in Hc.
  destruct (thread_step_bounded _ _ _ _ _ Hsh Hc Hstep) as [Hsh' Hc'].
  split; [done|]. simpl. by apply Forall_insert.
Qed.

Lemma boot_bounded B progs :
  bounded_progs B progs = true → bounded_system B (boot progs).
Proof.
  intros Hp. split; [done|]. simpl.
  apply Forall_fmap, Forall_forall. intros prog Hin; simpl.
  rewrite bounded_instr_user.
  unfold bounded_progs in Hp. rewrite forallb_forall in Hp.
  apply Hp. by apply list_elem_of_In.
Qed.

Lemma work_code_app wt c k :
  work_code wt (c ++ k) = work_code wt c + work_code wt k.
Proof. induction c as [|i c IH]; simpl; lia. Qed.

Lemma work_code_user wt body :
  work_code wt (map IUser body) = sum_list_with (work_action wt) body.
Proof. induction body as [|a body IH]; simpl; lia. Qed.

Lemma work_queue_snoc wt hs h :
  work_queue wt (hs ++ [h]) = work_queue wt hs + work_handler wt h.
Proof. induction hs as [|x hs IH]; simpl; lia. Qed.

Lemma work_wq_snoc wt ws w :
  work_wq wt (ws ++ [w]) = work_wq wt ws + work_wq wt [w].
Proof. induction ws as [|[h|s] ws IH]; simpl in *; lia. Qed.

Lemma work_done_snoc wt ns n :
  work_done wt (ns ++ [n]) = work_done wt ns + wt n.
Proof. induction ns as [|x ns IH]; simpl; lia. Qed.

(** Changing the cell of one strand changes a sum over the strands by the
    difference. *)
Lemma sum_strands_insert (f : Data → nat) (g : nat → Data) s d l :
  NoDup l → s ∈ l →
  sum_list_with (λ x, f ((<[s := d]> g) x)) l + f (g s)
  = sum_list_with (λ x, f (g x)) l + f d.
Proof.
  induction 1 as [|a l Hnotin Hnd IH]; [by intros ?%elem_of_nil|].
  intros [->|Hin]%elem_of_cons; simpl.
  - rewrite fn_lookup_insert.
    assert (sum_list_with (λ x, f ((<[a := d]> g) x)) l
            = sum_list_with (λ x, f (g x)) l) as ->; [|lia].
    clear IH Hnd. induction l as [|b l IH]; simpl; [done|].
    rewrite fn_lookup_insert_ne by (intros ->; apply Hnotin, list_elem_of_here).
    rewrite IH; [done|]. intros Hin. apply Hnotin. by apply list_elem_of_further.
  - rewrite fn_lookup_insert_ne by (by intros ->).
    specialize (IH Hin). lia.
Qed.

Lemma thread_step_work B wt sh th sh' th' :
  forallb (bounded_instr B) (code th) = true →
  thread_step sh th = Next sh' th' →
  work_done wt (out sh')
  + sum_list_with (λ s, work_queue wt (q (strands sh' s))) (seq 0 B)
  + work_wq wt (m_q sh') + work_code wt (code th')
  = work_done wt (out sh)
    + sum_list_with (λ s, work_queue wt (q (strands sh s))) (seq 0 B)
    + work_wq wt (m_q sh) + work_code wt (code th).
Proof.
  destruct th as [cw cst [|i k]]; [done|].
  intros Hb Hstep; simpl in *. step_cases Hstep.
  all: repeat match goal with
       | H : _ && _ = true |- _ => apply andb_true_iff in H as [? ?]
       | H : (_ <? _) = true |- _ => apply Nat.ltb_lt in H
       end.
  all: rewrite ?work_code_app, ?work_code_user, ?work_wq_snoc, ?work_done_snoc;
       simpl; try lia.
  all: try match goal with
       | Hlt : ?s < ?b |- context [work_queue ?w (q (<[?s := ?d]> (strands ?sh) _))] =>
           pose proof (sum_strands_insert (λ x, work_queue w (q x)) (strands sh)
                         s d (seq 0 b) (NoDup_seq _ _)
                         (proj2 (elem_of_seq _ _ _) (conj (Nat.le_0_l _) Hlt)))
             as Hsum; simpl in Hsum
       end.
  all: rewrite ?work_queue_snoc in *; simpl in *.
  all: repeat case_match; simplify_eq/=; rewrite ?work_queue_snoc in *; try lia.
  all: repeat match goal with
       | H : q ?d = _, H' : context [q ?d] |- _ => rewrite H in H'; simpl in H'
       | H : nonempty ?h = false |- _ => destruct h; [clear H|discriminate H]
       | H : is_marker ?w = true |- _ => destruct w as [[|?]|?]; try discriminate H; clear H
       end; simpl in *; simplify_eq/=; try lia.
  destruct h; [simpl; lia|done].
Qed.

Lemma boot_pending B wt progs :
  pending B wt (boot progs)
  = sum_list_with (sum_list_with (work_action wt)) progs.
Proof.
  unfold pending; simpl.
  assert (sum_list_with (λ _ : nat, 0) (seq 0 B) = 0) as ->.
  { induction (seq 0 B); simpl; lia. }
  induction progs as [|p progs IH]; simpl; [done|].
  rewrite work_code_user. simpl in IH. lia.
Qed.

Lemma rtc_step_work B wt sys sys' :
  bounded_system B sys →
  rtc step sys sys' →
  work_done wt (out (sh_of sys')) + pending B wt sys'
  = work_done wt (out (sh_of sys)) + pending B wt sys.
Proof.
  intros Hb Hrtc. induction Hrtc as [|sys1 sys2 sys3 Hstep _ IH]; [done|].
  rewrite IH by by eapply step_bounded.
  destruct Hb as [_ Hth]. destruct Hstep as [i th sh' th' Hi Hstep].
  pose proof (Forall_lookup_1 _ _ _ _ Hth Hi) as Hc; simpl in Hc.
  unfold pending; simpl.
  pose proof (sum_list_with_insert (λ t, work_code wt (code t)) _ i th th' Hi)
    as Hsum; simpl in Hsum.
  pose proof (thread_step_work B wt _ _ _ _ Hc Hstep). lia.
Qed.

(** X10: every effect is performed at most once and none is forgotten.  For
    client code that names strands below [B] only, in every state it can
    reach the effects performed so far plus the effects still pending (in
    strand queues, in the work queue, in the continuations of the threads)
    are the effects of the program text, under any weighing of the effects;
    so no value is output more often than the text contains it. *)
Theorem effects_are_conserved B wt progs sys :
  bounded_progs B progs = true →
  rtc step (boot progs) sys →
  work_done wt (out (sh_of sys)) + pending B wt sys
  = sum_list_with (sum_list_with (work_action wt)) progs
  ∧ work_done wt (out (sh_of sys))
    ≤ sum_list_with (sum_list_with (work_action wt)) progs.
Proof.
  intros Hp Hrtc.
  pose proof (rtc_step_work B wt _ _ (boot_bounded _ _ Hp) Hrtc) as Heq.
  rewrite boot_pending in Heq. simpl in Heq. lia.
Qed.


(** ** The sample program *)

Lemma worker_instr_job body :
  forallb is_work body = true → forallb worker_instr (map IUser body) = true.
Proof.
  induction body as [|a body IH]; simpl; [done|].
  intros [Ha Hb]%andb_true_iff. rewrite IH by done. by destruct a.
Qed.

Lemma loops_job body k :
  forallb is_work body = true → loops (map IUser body ++ k) = loops k.
Proof.
  induction body as [|a body IH]; simpl; [done|].
  intros [Ha Hb]%andb_true_iff. destruct a; try done; by apply IH.
Qed.

(** What a step of a worker of the sample does to the work queue and to its
    place in the consumer loop. *)
Inductive worker_move (sh : shared) (th : thread) (sh' : shared) (th' : thread) : Prop :=
  | move_inside :
      m_q sh' = m_q sh → left_loop th' = left_loop th →
      worker_move sh th sh' th'
  | move_pop_drain s :
      m_q sh = RunStrand s :: m_q sh' → left_loop th = 0 → left_loop th' = 0 →
      worker_move sh th sh' th'
  | move_pop_marker :
      m_q sh = marker :: m_q sh' → left_loop th = 0 → left_loop th' = 1 →
      worker_move sh th sh' th'
  | move_push_marker :
      m_q sh' = m_q sh ++ [marker] → left_loop th = 1 → left_loop th' = 1 →
      worker_move sh th sh' th'.

Lemma worker_step sh th sh' th' :
  forallb worker_instr (code th) = true →
  loops (code th) + markers_code (code th) ≤ 1 →
  (∀ s, forallb is_job (q (strands sh s)) = true) →
  queue_ok (m_q sh) = true →
  thread_step sh th = Next sh' th' →
  forallb worker_instr (code th') = true
  ∧ loops (code th') + markers_code (code th') ≤ 1
  ∧ (∀ s, forallb is_job (q (strands sh' s)) = true)
  ∧ queue_ok (m_q sh') = true
  ∧ worker_move sh th sh' th'.
Proof.
  destruct th as [cw cst [|i k]]; [done|].
  intros Hth Hloops Hq Hw Hstep; simpl in *.
  step_cases Hstep.
  all: unfold queue_ok in *.
  all: repeat match goal with
       | H : _ && _ = true |- _ => apply andb_true_iff in H as [? ?]
       | H : m_q ?sh = _ :: _, H' : context [m_q ?sh] |- _ =>
           rewrite H in H'; simpl in H'
       end.
  all: split_and!.
  all: rewrite ?forallb_app, ?loops_job, ?markers_code_user by done; simpl.
  all: try (rewrite worker_instr_job by done; simpl).
  all: try lia.
  all: try done.
  all: try (intros s0; try split_strand; simpl; try done;
            specialize (Hq s0); repeat case_match; simplify_eq/=).
  all: repeat match goal with
       | H : _ && _ = true |- _ => apply andb_true_iff in H as [? ?]
       | H : ?x = true |- context [?x] => rewrite H
       | H : q ?d = _ :: _, H' : context [q ?d] |- _ => rewrite H in H'; simpl in H'
       end; simpl; try done.
  all: try (apply move_inside; unfold left_loop; simpl;
            rewrite ?loops_job by done; simpl; by repeat case_match).
  - specialize (Hq s). rewrite Heql in Hq; simpl in Hq.
    by apply andb_true_iff in Hq as [-> _].
  - destruct w as [[|?]|?]; try done.
    apply move_pop_marker; unfold left_loop; simpl; [by f_equal|done|].
    by replace (loops k) with 0 by lia.
  - by destruct w as [[|?]|?].
  - destruct w as [[|?]|s]; try done.
    by apply (move_pop_drain _ _ _ _ s); unfold left_loop; simpl; [f_equal|..].
  - apply move_push_marker; unfold left_loop; simpl; [done|..];
      by replace (loops k) with 0 by lia.
Qed.

(** What a step of the main thread of the sample does to the work queue. *)
Inductive main_move (sh : shared) (sh' : shared) (th' : thread) : Prop :=
  | move_post : m_q sh' = m_q sh → code th' ≠ [] → main_move sh sh' th'
  | move_push_drain s :
      m_q sh' = m_q sh ++ [RunStrand s] → code th' ≠ [] → main_move sh sh' th'
  | move_stop : m_q sh' = m_q sh ++ [marker] → code th' = [] → main_move sh sh' th'.

Lemma posts_then_stop_nonempty c : posts_then_stop c = true → c ≠ [].
Proof. by destruct c. Qed.

Lemma main_step sh th sh' th' :
  main_ok (code th) = true →
  (∀ s, forallb is_job (q (strands sh s)) = true) →
  queue_ok (m_q sh) = true →
  thread_step sh th = Next sh' th' →
  main_ok (code th') = true
  ∧ (∀ s, forallb is_job (q (strands sh' s)) = true)
  ∧ queue_ok (m_q sh') = true
  ∧ main_move sh sh' th'.
Proof.
  destruct th as [cw cst [|i k]]; [done|].
  intros Hth Hq Hw Hstep; simpl in *.
  destruct i as [[]| | | | | | | | | |]; try done; simpl in *.
  - (* post *)
    apply andb_true_iff in Hth as [Hh Hk].
    pose proof (posts_then_stop_nonempty _ Hk) as Hne.
    unfold thread_step, user_step, post_call, Monitor_call in Hstep.
    simpl in Hstep. rewrite post_txn_spec in Hstep.
    destruct (running (strands sh s)) eqn:Hrun; simplify_eq/=.
    all: split_and!; try done.
    all: try (intros s0; destruct (decide (s = s0)) as [->|?];
              [rewrite fn_lookup_insert; simpl; rewrite forallb_app; simpl;
               by rewrite Hq, Hh
              |by rewrite fn_lookup_insert_ne]).
    + by destruct k as [|[] ?].
    + by apply move_post.
    + by apply move_post.
  - (* stop *)
    destruct k; [|done]. unfold thread_step in Hstep; simplify_eq/=.
    split_and!; try done.
    + unfold queue_ok in *. rewrite forallb_app. simpl. by rewrite Hw.
    + by apply move_stop.
  - (* the push of a drain closure *)
    pose proof (posts_then_stop_nonempty _ Hth) as Hne.
    unfold thread_step in Hstep; simplify_eq/=.
    split_and!; try done.
    + by destruct k as [|[] ?].
    + unfold queue_ok in *. rewrite forallb_app. simpl. by rewrite Hw.
    + by apply (move_push_drain _ _ _ s).
Qed.



Lemma drains_first_snoc wq w :
  markers_wq wq = 0 → drains_first (wq ++ [w]) = true.
Proof.
  induction wq as [|x wq IH]; simpl; [by destruct (is_marker w)|].
  destruct (is_marker x); [lia|]. by apply IH.
Qed.

Lemma all_markers_drains_first wq :
  forallb is_marker wq = true → drains_first wq = true.
Proof. destruct wq as [|x wq]; simpl; [done|]. by intros [-> ->]%andb_true_iff. Qed.

Lemma all_markers_snoc wq :
  forallb is_marker wq = true → forallb is_marker (wq ++ [marker]) = true.
Proof. intros Hm. rewrite forallb_app. simpl. by rewrite Hm. Qed.

Lemma all_markers_tokens s wq : forallb is_marker wq = true → tokens_wq s wq = 0.
Proof.
  induction wq as [|x wq IH]; simpl; [done|].
  intros [Hx Hm]%andb_true_iff. rewrite IH by done.
  by destruct x as [[|?]|?].
Qed.

Lemma all_markers_work wt wq : forallb is_marker wq = true → work_wq wt wq = 0.
Proof.
  induction wq as [|x wq IH]; simpl; [done|].
  intros [Hx Hm]%andb_true_iff. rewrite IH by done.
  by destruct x as [[|?]|?].
Qed.

Lemma no_markers_tail x wq : markers_wq (x :: wq) = 0 → markers_wq wq = 0.
Proof. simpl. lia. Qed.

Lemma step_sample_inv sys sys' : sample_inv sys → step sys sys' → sample_inv sys'.
Proof.
  intros (m & ws & Hths & Hm & Hws & Hq & Hw & Hdf & Hbefore & Hafter)
         [i th sh' th' Hi Hstep].
  rewrite Hths in Hi. destruct i as [|i]; simpl in Hi; simplify_eq.
  - (* the main thread *)
    destruct (main_step _ _ _ _ Hm Hq Hw Hstep) as (Hm' & Hq' & Hw' & Hmove).
    exists th', ws. rewrite Hths. simpl.
    assert (code th ≠ []) as Hne by (intros Hnil; unfold thread_step in Hstep;
                                     by rewrite Hnil in Hstep).
    destruct (Hbefore Hne) as [Hnomark Hnoleft].
    split_and!; try done.
    + destruct Hmove as [-> _|s -> _| -> _]; [done|by apply drains_first_snoc..].
    + intros Hne'. split; [|done].
      destruct Hmove as [-> _|s -> _|_ ?]; [done| |done].
      rewrite markers_wq_snoc. simpl. lia.
    + lia.
  - (* a worker *)
    pose proof (Forall_lookup_1 _ _ _ _ Hws Hi) as [Hth Hloops].
    destruct (worker_step _ _ _ _ Hth Hloops Hq Hw Hstep)
      as (Hth' & Hloops' & Hq' & Hw' & Hmove).
    exists m, (<[i := th']> ws). rewrite Hths. simpl.
    pose proof (sum_list_with_insert left_loop _ i th th' Hi) as Hsum.
    pose proof (sum_list_with_lookup left_loop _ _ _ Hi) as Hle.
    split_and!; try done.
    + by apply Forall_insert.
    + destruct Hmove as [-> _|s Hpop _ _|Hpop _ _|Hpush Hleft _].
      * done.
      * rewrite Hpop in Hdf. done.
      * rewrite Hpop in Hdf. by apply all_markers_drains_first.
      * rewrite Hpush. apply all_markers_drains_first, all_markers_snoc.
        apply Hafter. lia.
    + intros Hne. destruct (Hbefore Hne) as [Hnomark Hnoleft].
      destruct Hmove as [-> Hl|s Hpop Hl Hl'|Hpop _ _|_ Hl _].
      * split; [done|]. lia.
      * rewrite Hpop in Hnomark. split; [by eapply no_markers_tail|]. lia.
      * rewrite Hpop in Hnomark. done.
      * lia.
    + intros Hleft.
      destruct Hmove as [-> Hl|s Hpop Hl Hl'|Hpop _ _|Hpush Hl _].
      * apply Hafter. lia.
      * assert (forallb is_marker (m_q (sh_of sys)) = true) as Hall
          by (apply Hafter; lia).
        by rewrite Hpop in Hall.
      * rewrite Hpop in Hdf. done.
      * rewrite Hpush. apply all_markers_snoc, Hafter. lia.
Qed.

Lemma posts_then_stop_sample jobs :
  posts_then_stop (map IUser (sample_main jobs)) = true.
Proof. unfold sample_main. induction jobs as [|[s v] jobs IH]; simpl; done. Qed.

Lemma boot_sample_inv jobs w : sample_inv (boot (sample_gen jobs w)).
Proof.
  exists (spawn (sample_main jobs)), (map spawn (replicate w [ARunWQ])).
  split_and!; try done.
  - pose proof (posts_then_stop_sample jobs) as Hp. simpl.
    unfold main_ok. destruct (map IUser (sample_main jobs)) as [|[] ?] eqn:Hc;
      done.
  - apply Forall_fmap, Forall_forall. intros p ->%elem_of_replicate_inv.
    simpl. split; [done|lia].
  - intros _. split; [done|]. induction w as [|w IH]; simpl; [done|].
    by rewrite IH.
Qed.

Lemma rtc_step_sample_inv sys sys' :
  sample_inv sys → rtc step sys sys' → sample_inv sys'.
Proof. intros Hinv Hrtc. induction Hrtc; eauto using step_sample_inv. Qed.

Lemma rtc_step_length sys sys' :
  rtc step sys sys' → length (threads sys') = length (threads sys).
Proof.
  induction 1 as [|sys1 sys2 sys3 [i th sh' th' Hi Hstep] _ IH]; [done|].
  rewrite IH. simpl. apply length_insert.
Qed.

Lemma clean_sample jobs w : clean_progs (sample_gen jobs w) = true.
Proof.
  unfold clean_progs, sample_gen. simpl. apply andb_true_iff. split.
  - unfold sample_main. rewrite forallb_app. simpl.
    rewrite andb_true_r. by induction jobs.
  - by induction w.
Qed.

Lemma bounded_sample jobs w :
  bounded_progs (sample_bound jobs) (sample_gen jobs w) = true.
Proof.
  unfold bounded_progs, sample_gen. simpl. apply andb_true_iff. split.
  - unfold sample_main. rewrite forallb_app. simpl. rewrite andb_true_r.
    apply forallb_forall. intros a [[s v] [<- Hin]]%in_map_iff. simpl.
    rewrite andb_true_r. apply Nat.ltb_lt. unfold sample_bound.
    assert (s ∈ jobs.*1) as Hs.
    { apply list_elem_of_fmap. exists (s, v). split; [done|].
      by apply list_elem_of_In. }
    apply max_list_elem_of_le in Hs. apply Nat.lt_succ_r. exact Hs.
  - by induction w.
Qed.

Lemma work_sample wt jobs w :
  sum_list_with (sum_list_with (work_action wt)) (sample_gen jobs w)
  = work_done wt (jobs.*2).
Proof.
  unfold sample_gen. simpl.
  assert (sum_list_with (sum_list_with (work_action wt)) (replicate w [ARunWQ]) = 0)
    as -> by (induction w as [|w IH]; simpl; [done|]; by rewrite IH).
  unfold sample_main, job. rewrite sum_list_with_app. simpl.
  induction jobs as [|[s v] jobs IH]; csimpl in *; lia.
Qed.

Lemma sum_finished (f : list instr → nat) (ths : list thread) :
  f [] = 0 → Forall (λ th, code th = []) ths →
  sum_list_with (λ th, f (code th)) ths = 0.
Proof.
  intros Hf. induction 1 as [|th ths Hth _ IH]; simpl; [done|].
  by rewrite Hth, Hf, IH.
Qed.

(** When every thread of the sample has returned, every strand is idle with
    an empty queue and only markers are left in the work queue. *)
Lemma sample_finished_idle jobs w sys :
  0 < w →
  rtc step (boot (sample_gen jobs w)) sys →
  Forall (λ th, code th = []) (threads sys) →
  forallb is_marker (m_q (sh_of sys)) = true
  ∧ ∀ s, strands (sh_of sys) s = mkData false [].
Proof.
  intros Hw Hrtc Hfin.
  pose proof (rtc_step_sample_inv _ _ (boot_sample_inv jobs w) Hrtc)
    as (m & ws & Hths & _ & _ & _ & _ & _ & _ & Hafter).
  pose proof (rtc_step_length _ _ Hrtc) as Hlen.
  rewrite Hths in Hlen, Hfin. simpl in Hlen.
  rewrite length_map, length_replicate in Hlen.
  destruct ws as [|t ws]; [simpl in Hlen; lia|].
  pose proof Hfin as [_ [Ht _]%Forall_cons]%Forall_cons.
  assert (forallb is_marker (m_q (sh_of sys)) = true) as Hall.
  { apply Hafter. simpl. unfold left_loop at 1. rewrite Ht. simpl. lia. }
  split; [done|]. intros s.
  assert (tokens s sys = 0) as Hz.
  { unfold tokens. rewrite all_markers_tokens by done. rewrite Hths.
    by rewrite (sum_finished (tokens_code s)). }
  pose proof (rtc_step_tokens_eq s _ sys (boot_clean _ (clean_sample jobs w)))
    as Heq.
  rewrite boot_tokens in Heq. specialize (Heq eq_refl Hrtc).
  rewrite Hz in Heq. unfold cap in Heq.
  pose proof (reachable_strand_inv sys s (ex_intro _ _ Hrtc)) as Hinv.
  destruct (strands (sh_of sys) s) as [[] qs]; simpl in *; [lia|].
  by rewrite Hinv.
Qed.

Lemma sum_list_with_zero {A} (f : A → nat) (l : list A) :
  (∀ x, f x = 0) → sum_list_with f l = 0.
Proof. intros Hf. induction l as [|a l IH]; simpl; [done|]. by rewrite Hf, IH. Qed.

Lemma work_done_count x l :
  work_done (λ n, if decide (n = x) then 1 else 0) l = count_occ Nat.eq_dec l x.
Proof.
  induction l as [|a l IH]; simpl; [done|]. rewrite IH.
  destruct (decide (a = x)), (Nat.eq_dec a x); done.
Qed.

Lemma sample_finished_done jobs w sys :
  0 < w →
  rtc step (boot (sample_gen jobs w)) sys →
  Forall (λ th, code th = []) (threads sys) →
  out (sh_of sys) ≡ₚ jobs.*2
  ∧ length (out (sh_of sys)) = length jobs
  ∧ (∀ s, strands (sh_of sys) s = Data_init)
  ∧ forallb is_marker (m_q (sh_of sys)) = true.
Proof.
  intros Hw Hrtc Hfin.
  destruct (sample_finished_idle jobs w sys Hw Hrtc Hfin) as [Hall Hidle].
  assert (∀ wt, work_done wt (out (sh_of sys)) = work_done wt (jobs.*2)) as Hwork.
  { intros wt.
    pose proof (rtc_step_work (sample_bound jobs) wt _ _
                  (boot_bounded _ _ (bounded_sample jobs w)) Hrtc) as Heq.
    rewrite boot_pending, work_sample in Heq. simpl in Heq.
    unfold pending in Heq.
    rewrite all_markers_work, (sum_finished (work_code wt)) in Heq by done.
    rewrite sum_list_with_zero in Heq by (intros s; by rewrite Hidle).
    lia. }
  assert (out (sh_of sys) ≡ₚ jobs.*2) as Hperm.
  { apply (Permutation_count_occ Nat.eq_dec). intros x.
    rewrite <-!work_done_count. apply Hwork. }
  split_and!; try done.
  by rewrite Hperm, length_fmap.
Qed.

(** X11: the assertion at the end of [strandSample].  Whatever strands the
    random choices pick and however the threads interleave, once the main
    thread and all the workers have returned every posted handler has run
    exactly once: the effects performed are a permutation of the posted ones,
    so [doneCount == todo]; every strand is idle again and the work queue
    holds nothing but shutdown markers. *)
Theorem sample_assertion_holds jobs w sys :
  0 < w →
  rtc step (boot (sample_gen jobs w)) sys →
  Forall (λ th, code th = []) (threads sys) →
  out (sh_of sys) ≡ₚ jobs.*2
  ∧ length (out (sh_of sys)) = length jobs
  ∧ (∀ s, strands (sh_of sys) s = Data_init)
  ∧ forallb is_marker (m_q (sh_of sys)) = true.
Proof. intros Hw Hrtc Hfin. by apply (sample_finished_done jobs w). Qed.

(** *** The sample cannot get stuck *)

Lemma step_stop_seen sys sys' :
  sample_inv sys → stop_seen sys → step sys sys' → stop_seen sys'.
Proof.
  intros (m & ws & Hths & Hm & _ & Hq & Hw & _) Hseen Hstep m' ws' Hths' Hnil.
  pose proof (step_markers _ _ Hstep) as Hmono.
  destruct Hstep as [i th sh' th' Hi Hstep]. simpl in *.
  rewrite Hths in Hi, Hths'. destruct i as [|i]; simpl in *; simplify_eq.
  - destruct (main_step _ _ _ _ Hm Hq Hw Hstep) as (_ & _ & _ & Hmove).
    destruct Hmove as [_ ?|s _ ?|Hpush _]; [done..|].
    unfold markers; simpl. rewrite Hpush, markers_wq_snoc. simpl. lia.
  - specialize (Hseen _ _ Hths Hnil). lia.
Qed.

Lemma rtc_step_stop_seen sys sys' :
  sample_inv sys → stop_seen sys → rtc step sys sys' → stop_seen sys'.
Proof.
  intros Hinv Hseen Hrtc. induction Hrtc as [|sys1 sys2 sys3 Hstep _ IH]; [done|].
  apply IH; [by eapply step_sample_inv|by eapply step_stop_seen].
Qed.

Lemma boot_stop_seen jobs w : stop_seen (boot (sample_gen jobs w)).
Proof.
  intros m ws [= <- <-] Hnil. simpl in Hnil. unfold sample_main in Hnil.
  by destruct jobs.
Qed.

Lemma main_quiet sh th :
  main_ok (code th) = true →
  (∀ sh' th', thread_step sh th ≠ Next sh' th') →
  code th = [].
Proof.
  destruct th as [cw cst [|i k]]; [done|]. simpl. intros Hok Hquiet.
  exfalso. unfold thread_step, user_step, post_call, Monitor_call in Hquiet.
  simpl in Hquiet.
  destruct i as [[]| | | | | | | | | |]; try done;
    try (by eapply Hquiet).
  destruct (post_txn h (strands sh s)). by eapply Hquiet.
Qed.

Lemma worker_quiet sh th :
  forallb worker_instr (code th) = true →
  (∀ sh' th', thread_step sh th ≠ Next sh' th') →
  code th = []
  ∨ (∃ k, code th = IWQPop :: k ∧ m_q sh = [])
  ∨ (∃ s k, code th = IDrain s :: k ∧ running (strands sh s) = false).
Proof.
  destruct th as [cw cst [|i k]]; [by left|]. simpl. intros Hok Hquiet.
  right. unfold thread_step, user_step, Monitor_call in Hquiet. simpl in Hquiet.
  destruct i as [[]|s [|body]| | | |s| |[h|s]| | |]; try done;
    try (exfalso; by eapply Hquiet).
  - right. exists s, k. split; [done|].
    unfold run_txn in Hquiet. destruct (running (strands sh s)); [|done].
    exfalso. destruct (run_body (strands sh s)). by eapply Hquiet.
  - left. exists k. split; [done|].
    destruct (m_q sh); [done|]. exfalso. by eapply Hquiet.
Qed.

Lemma drain_head_running sys i th s k :
  wf_system sys → threads sys !! i = Some th → code th = IDrain s :: k →
  running (strands (sh_of sys) s) = true.
Proof.
  intros [_ Htok] Hi Hcode. specialize (Htok s). unfold tokens, cap in Htok.
  pose proof (sum_list_with_lookup (λ t, tokens_code s (code t)) _ _ _ Hi) as Hle.
  simpl in Hle. rewrite Hcode in Hle; simpl in Hle.
  rewrite bool_decide_eq_true_2 in Hle by done.
  destruct (running (strands (sh_of sys) s)); [done|lia].
Qed.

Lemma sample_quiescent_finished jobs w sys :
  rtc step (boot (sample_gen jobs w)) sys →
  quiescent sys →
  Forall (λ th, code th = []) (threads sys).
Proof.
  intros Hrtc Hquiet.
  pose proof (rtc_step_sample_inv _ _ (boot_sample_inv jobs w) Hrtc) as Hinv.
  pose proof (rtc_step_stop_seen _ _ (boot_sample_inv jobs w)
                (boot_stop_seen jobs w) Hrtc) as Hseen.
  pose proof (reachable_wf sys (ex_intro _ _ Hrtc)) as Hwf.
  destruct Hinv as (m & ws & Hths & Hm & Hws & _).
  unfold quiescent in Hquiet. rewrite Hths in Hquiet |- *.
  apply Forall_cons in Hquiet as [Hqm Hqws].
  pose proof (main_quiet _ _ Hm Hqm) as Hnil.
  specialize (Hseen _ _ Hths Hnil). unfold markers in Hseen.
  rewrite Hths in Hseen. simpl in Hseen. rewrite Hnil in Hseen. simpl in Hseen.
  assert (∀ j t, ws !! j = Some t →
            code t = [] ∨ ∃ k, code t = IWQPop :: k ∧ m_q (sh_of sys) = [])
    as Hshape.
  { intros j t Hj.
    pose proof (Forall_lookup_1 _ _ _ _ Hws Hj) as [Hok _].
    pose proof (Forall_lookup_1 _ _ _ _ Hqws Hj) as Hq.
    destruct (worker_quiet _ _ Hok Hq) as [?|[?|(s & k & Hcode & Hrun)]]; auto.
    assert (threads sys !! S j = Some t) as Hj' by by rewrite Hths.
    pose proof (drain_head_running _ _ _ _ _ Hwf Hj' Hcode). congruence. }
  assert (m_q (sh_of sys) ≠ []) as Hne.
  { intros Hempty. rewrite Hempty in Hseen. simpl in Hseen.
    destruct (sum_list_with_pos (λ t, markers_code (code t)) ws)
      as (j & t & Hj & Hpos); [lia|].
    pose proof (Forall_lookup_1 _ _ _ _ Hws Hj) as [_ Hloops].
    destruct (Hshape _ _ Hj) as [Hc|(k & Hc & _)];
      rewrite Hc in Hpos, Hloops; simpl in *; lia. }
  apply Forall_cons. split; [done|].
  apply Forall_lookup. intros j t Hj.
  by destruct (Hshape _ _ Hj) as [?|(k & _ & ?)].
Qed.

(** X12: the sample cannot deadlock.  Whatever the random choices and the
    interleaving, a state in which no thread can take a step is one in which
    every thread has returned: no worker is left waiting on the empty queue,
    because the marker pushed by [stop] is handed from consumer to
    consumer. *)
Theorem sample_cannot_deadlock jobs w sys :
  rtc step (boot (sample_gen jobs w)) sys →
  quiescent sys →
  Forall (λ th, code th = []) (threads sys)
  ∧ ¬ ∃ sys', step sys sys'.
Proof.
  intros Hrtc Hquiet. split; [by eapply sample_quiescent_finished|].
  intros [sys' [i th sh' th' Hi Hstep]].
  unfold quiescent in Hquiet.
  by apply (Forall_lookup_1 _ _ _ _ Hquiet Hi sh' th').
Qed.

(** ** Every run is finite *)

Lemma fuel_code_app c k : fuel_code (c ++ k) = fuel_code c + fuel_code k.
Proof. induction c as [|i c IH]; simpl; lia. Qed.

Lemma fuel_code_user body :
  fuel_code (map IUser body) = sum_list_with size_action body.
Proof. induction body as [|a body IH]; simpl; lia. Qed.

Lemma fuel_queue_snoc hs h :
  fuel_queue (hs ++ [h]) = fuel_queue hs + (3 + size_handler h).
Proof. induction hs as [|x hs IH]; simpl; lia. Qed.

Lemma fuel_wq_snoc ws w : fuel_wq (ws ++ [w]) = fuel_wq ws + fuel_wq [w].
Proof. induction ws as [|[h|s] ws IH]; simpl in *; lia. Qed.

Lemma thread_step_fuel B sh th sh' th' :
  forallb (bounded_instr B) (code th) = true →
  thread_step sh th = Next sh' th' →
  sum_list_with (λ s, fuel_queue (q (strands sh' s))) (seq 0 B)
  + fuel_wq (m_q sh') + fuel_code (code th')
  < sum_list_with (λ s, fuel_queue (q (strands sh s))) (seq 0 B)
    + fuel_wq (m_q sh) + fuel_code (code th).
Proof.
  destruct th as [cw cst [|i k]]; [done|].
  intros Hb Hstep; simpl in *. step_cases Hstep.
  all: repeat match goal with
       | H : _ && _ = true |- _ => apply andb_true_iff in H as [? ?]
       | H : (_ <? _) = true |- _ => apply Nat.ltb_lt in H
       end.
  all: rewrite ?fuel_code_app, ?fuel_code_user, ?fuel_wq_snoc; simpl; try lia.
  all: try match goal with
       | Hlt : ?s < ?b |- context [fuel_queue (q (<[?s := ?d]> (strands ?sh) _))] =>
           pose proof (sum_strands_insert (λ x, fuel_queue (q x)) (strands sh)
                         s d (seq 0 b) (NoDup_seq _ _)
                         (proj2 (elem_of_seq _ _ _) (conj (Nat.le_0_l _) Hlt)))
             as Hsum; simpl in Hsum
       end.
  all: rewrite ?fuel_queue_snoc in *; simpl in *.
  all: repeat case_match; simplify_eq/=; rewrite ?fuel_queue_snoc in *; try lia.
  all: repeat match goal with
       | H : q ?d = _, H' : context [q ?d] |- _ => rewrite H in H'; simpl in H'
       | H : nonempty ?h = false |- _ => destruct h; [clear H|discriminate H]
       | H : is_marker ?w = true |- _ => destruct w as [[|?]|?]; try discriminate H; clear H
       end; simpl in *; simplify_eq/=; try lia.
Qed.

Lemma step_fuel B sys sys' :
  bounded_system B sys → step sys sys' → fuel B sys' < fuel B sys.
Proof.
  intros [_ Hth] [i th sh' th' Hi Hstep].
  pose proof (Forall_lookup_1 _ _ _ _ Hth Hi) as Hc; simpl in Hc.
  unfold fuel; simpl.
  pose proof (sum_list_with_insert (λ t, fuel_code (code t)) _ i th th' Hi)
    as Hsum; simpl in Hsum.
  pose proof (thread_step_fuel B _ _ _ _ Hc Hstep). lia.
Qed.

Lemma nsteps_fuel B n sys sys' :
  bounded_system B sys → nsteps step n sys sys' →
  n + fuel B sys' ≤ fuel B sys.
Proof.
  intros Hb Hn. induction Hn as [|n sys1 sys2 sys3 Hstep _ IH]; [lia|].
  pose proof (step_fuel _ _ _ Hb Hstep).
  specialize (IH (step_bounded _ _ _ Hb Hstep)). lia.
Qed.

Lemma boot_fuel B progs :
  fuel B (boot progs) = sum_list_with (sum_list_with size_action) progs.
Proof.
  unfold fuel; simpl. rewrite sum_list_with_zero by done.
  induction progs as [|p progs IH]; simpl; [done|].
  rewrite fuel_code_user. simpl in IH. lia.
Qed.

(** X13: the loops of the library cannot spin.  Every step of every thread
    uses up fuel: a run of client code that names strands below [B] only has
    at most as many steps as the fuel of its initial state, whatever the
    interleaving; the drain loop and the consumer loop go round only as often
    as there is something queued. *)
Theorem runs_are_bounded B progs n sys :
  bounded_progs B progs = true →
  nsteps step n (boot progs) sys →
  n + fuel B sys ≤ sum_list_with (sum_list_with size_action) progs.
Proof.
  intros Hp Hn. rewrite <-(boot_fuel B).
  by apply nsteps_fuel; [apply boot_bounded|].
Qed.

(** *** The sample always completes *)

Lemma quiet_or_mover sh ths :
  Forall (λ th, ∀ sh' th', thread_step sh th ≠ Next sh' th') ths
  ∨ ∃ i th sh' th', ths !! i = Some th ∧ thread_step sh th = Next sh' th'.
Proof.
  induction ths as [|a ths IH]; [by left|].
  destruct (thread_step sh a) as [sh' th'| | | |] eqn:Hstep;
    [right; by exists 0, a, sh', th'|..].
  all: destruct IH as [IH|(i & th & sh' & th' & Hi & Hth)];
    [left; apply Forall_cons; split; [by rewrite Hstep|done]
    |right; by exists (S i), th, sh', th'].
Qed.

Lemma quiescent_or_step sys : quiescent sys ∨ ∃ sys', step sys sys'.
Proof.
  destruct (quiet_or_mover (sh_of sys) (threads sys))
    as [?|(i & th & sh' & th' & Hi & Hstep)]; [by left|right].
  eexists. by econstructor.
Qed.

Lemma reach_quiescent B sys :
  bounded_system B sys → ∃ sys', rtc step sys sys' ∧ quiescent sys'.
Proof.
  remember (fuel B sys) as n eqn:Hn. revert sys Hn.
  induction (lt_wf n) as [n _ IH]. intros sys -> Hb.
  destruct (quiescent_or_step sys) as [Hq|[sys1 Hstep]]; [by exists sys|].
  destruct (IH (fuel B sys1) (step_fuel _ _ _ Hb Hstep) sys1 eq_refl
               (step_bounded _ _ _ Hb Hstep)) as (sys' & Hrtc & Hq).
  exists sys'. split; [by eapply rtc_l|done].
Qed.

Lemma rtc_step_bounded B sys sys' :
  bounded_system B sys → rtc step sys sys' → bounded_system B sys'.
Proof. intros Hb Hrtc. induction Hrtc; eauto using step_bounded. Qed.

(** X14: the sample always completes.  From every state the sample can
    reach, whatever was chosen and scheduled so far, it can run on to a state
    in which all threads have returned and the effects performed are a
    permutation of the posted ones; and it cannot run on for more steps than
    the fuel that is left. *)
Theorem sample_always_completes jobs w sys :
  0 < w →
  rtc step (boot (sample_gen jobs w)) sys →
  (∃ sys', rtc step sys sys'
     ∧ Forall (λ th, code th = []) (threads sys')
     ∧ out (sh_of sys') ≡ₚ jobs.*2
     ∧ length (out (sh_of sys')) = length jobs)
  ∧ (∀ n sys', nsteps step n sys sys' → n ≤ fuel (sample_bound jobs) sys).
Proof.
  intros Hw Hrtc.
  pose proof (rtc_step_bounded _ _ _
                (boot_bounded _ _ (bounded_sample jobs w)) Hrtc) as Hb.
  split.
  - destruct (reach_quiescent _ _ Hb) as (sys' & Hrtc' & Hq).
    assert (rtc step (boot (sample_gen jobs w)) sys') as Hall by by etrans.
    pose proof (sample_quiescent_finished _ _ _ Hall Hq) as Hfin.
    destruct (sample_finished_done _ _ _ Hw Hall Hfin) as (Hperm & Hlen & _).
    by exists sys'.
  - intros n sys' Hn. pose proof (nsteps_fuel _ _ _ _ Hb Hn). lia.
Qed.

(** ** Witnesses of the further properties *)

Lemma handlers_run_on_executor_threads_witness :
  canDispatch reentrant_worker = true ∧ IWQCtxExit ∈ code reentrant_worker.
Proof.
  apply (handlers_run_on_executor_threads reentrant_sys 1 reentrant_worker 0).
  - apply schedule_reachable.
  - reflexivity.
  - reflexivity.
Defined.

Lemma running_in_this_thread_is_ownership_witness :
  running (strands (sh_of reentrant_sys) 0) = true
  ∧ tokens_code 0 (code reentrant_worker) = 1.
Proof.
  destruct (running_in_this_thread_is_ownership reentrant_sys 1 reentrant_worker 0
              (ADispatch 0 (Fn [AWork 2]))
              [IHandlerEnd 0; IDrain 0; ICtxExit 0; IWQPop; IWQCtxExit])
    as (Hrun & Hown & _).
  - apply schedule_reachable.
  - reflexivity.
  - reflexivity.
  - reflexivity.
  - split; [exact Hrun|exact Hown].
Defined.

Lemma registry_queries_track_open_scopes_witness :
  canDispatch reentrant_worker = true ↔ IWQCtxExit ∈ code reentrant_worker.
Proof.
  refine (proj1 (registry_queries_track_open_scopes reentrant_sys 1
                   reentrant_worker _ _)).
  - apply schedule_reachable.
  - reflexivity.
Defined.

Lemma shutdown_is_permanent_witness :
  markers stopping_sys < markers (sched1 0 stopping_sys).
Proof.
  refine (proj1 (shutdown_is_permanent stopping_sys (sched1 0 stopping_sys)
                   (spawn [AStop]) [] 0 _ _ _)).
  - reflexivity.
  - reflexivity.
  - apply rtc_refl.
Defined.

Lemma drain_runs_queue_in_order_witness :
  out (sh_of (schedule (replicate (drain_steps [[1; 2]; [3]]) 0) two_jobs_sys))
  = [1; 2; 3].
Proof.
  refine (proj1 (drain_runs_queue_in_order two_jobs_sys 0 draining_worker 0
                   [ICtxExit 0; IWQPop; IWQCtxExit] [[1; 2]; [3]] _ _ _ _));
    reflexivity.
Defined.

Lemma consumer_runs_items_in_order_witness :
  schedule (replicate (consume_steps [[1]; [2; 3]]) 0) two_items_sys
  = mkSystem (mkShared (λ _, Data_init) [marker] [1; 2; 3])
             [mkThread [wq_id] [] [IWQCtxExit]].
Proof.
  refine (consumer_runs_items_in_order two_items_sys 0 (worker []) [IWQCtxExit]
            [[1]; [2; 3]] [] _ _ _); reflexivity.
Defined.

Lemma clean_programs_call_no_empty_callable_witness :
  thread_step (sh_of reentrant_sys) reentrant_worker ≠ BadCall.
Proof.
  refine (proj1 (clean_programs_call_no_empty_callable reentrant_prog
                   reentrant_sys 1 reentrant_worker _ _ _)).
  - reflexivity.
  - apply schedule_rtc.
  - reflexivity.
Defined.

Lemma clean_programs_keep_one_owner_witness :
  tokens 0 reentrant_sys = 1.
Proof.
  refine (proj1 (clean_programs_keep_one_owner reentrant_prog reentrant_sys 0 _ _)).
  - reflexivity.
  - apply schedule_rtc.
Defined.

Lemma clean_drain_returns_only_when_idle_witness :
  ∃ body rest, q (strands (sh_of draining_sys) 0) = Fn body :: rest.
Proof.
  destruct (clean_drain_returns_only_when_idle reentrant_prog draining_sys 1
              draining_worker 0 [ICtxExit 0; IWQPop; IWQCtxExit]
              (sh_of (sched1 1 draining_sys))
              (set_code (IHandler 0 (Fn [AWork 1; ADispatch 0 (Fn [AWork 2])])
                         :: code draining_worker) draining_worker))
    as [(Hq & _)|(body & rest & Hq & _)].
  - reflexivity.
  - apply schedule_rtc.
  - reflexivity.
  - reflexivity.
  - reflexivity.
  - discriminate Hq.
  - exists body, rest. exact Hq.
Defined.

Lemma effects_are_conserved_witness :
  work_done (λ _, 1) (out (sh_of reentrant_sys)) ≤ 2.
Proof.
  refine (proj2 (effects_are_conserved 1 (λ _, 1) reentrant_prog reentrant_sys
                   _ _)).
  - reflexivity.
  - apply schedule_rtc.
Defined.

Lemma sample_assertion_holds_witness :
  out (sh_of tiny_sample_final) ≡ₚ [7; 8].
Proof.
  refine (proj1 (sample_assertion_holds [(0, 7); (1, 8)] 1 tiny_sample_final
                   _ _ _)).
  - lia.
  - apply schedule_rtc.
  - vm_compute. repeat constructor.
Defined.

Lemma sample_cannot_deadlock_witness :
  Forall (λ th, code th = []) (threads tiny_sample_final).
Proof.
  refine (proj1 (sample_cannot_deadlock [(0, 7); (1, 8)] 1 tiny_sample_final
                   _ _)).
  - apply schedule_rtc.
  - unfold quiescent. vm_compute threads.
    repeat constructor; intros sh' th' Hstep; discriminate Hstep.
Defined.

Lemma runs_are_bounded_witness :
  1 + fuel 1 (sched1 0 (boot reentrant_prog)) ≤ 26.
Proof.
  apply (runs_are_bounded 1 reentrant_prog 1 (sched1 0 (boot reentrant_prog))).
  - reflexivity.
  - apply nsteps_once.
    apply (step_thread (boot reentrant_prog) 0
             (spawn [APost 0 (Fn [AWork 1; ADispatch 0 (Fn [AWork 2])])])).
    + reflexivity.
    + reflexivity.
Defined.

Lemma sample_always_completes_witness :
  ∃ sys', rtc step (boot (sample_gen [(0, 7); (1, 8)] 1)) sys'
    ∧ Forall (λ th, code th = []) (threads sys')
    ∧ out (sh_of sys') ≡ₚ [7; 8]
    ∧ length (out (sh_of sys')) = 2.
Proof.
  refine (proj1 (sample_always_completes [(0, 7); (1, 8)] 1
                   (boot (sample_gen [(0, 7); (1, 8)] 1)) _ _)).
  - lia.
  - apply rtc_refl.
Defined.
